(** * go-linalg: the Matrix engine of [matrix.go], embedded and verified

    The Go package [linalg] stores a matrix as [lines], [columns] and a
    [[][]float64] grid.  This development embeds every operation of
    [matrix.go] and settles the properties the specification states about
    them.

    The embedding is parametric in the scalar arithmetic ([scalar]): the
    program itself is the instance [float64] (IEEE-754 binary64, Rocq's
    primitive floats); the instance [exact F] runs the very same code over
    an ordered field, which is what "up to rounding" statements refer to.

    Outcomes of a call are [Ok v] (normal return), [Err e] (the Go [error]
    value built by [errors.New]) and [Panic] (a Go run-time panic, here
    always an index out of range on the caller's grid). *)

Set Warnings "-notation-overridden,-ambiguous-paths,-rewrite-rw".
From HB Require Import structures.
From mathcomp Require Import boot order algebra.
From Stdlib Require Import Floats ZArith Lia String.

Set Implicit Arguments.
Unset Strict Implicit.
Unset Printing Implicit Defensive.

(* ===================================================================== *)
(** * Outcomes *)
(* ===================================================================== *)

(** One constructor per [errors.New] call site message of [matrix.go]. *)
Inductive error : Set :=
| ErrRowTooHigh      (* Position, line 107 *)
| ErrColumnTooHigh   (* Position, line 111 *)
| ErrInvalidRow      (* Position, line 115 *)
| ErrInvalidColumn   (* Position, line 119 *)
| ErrSizeNotSame     (* Sum and Sub, lines 129 and 147 *)
| ErrProductShape    (* Product, line 191 *)
| ErrLUNotSquare     (* LU, line 211 *)
| ErrEmptyMatrix     (* Determinant, line 266 *)
| ErrDetNotSquare    (* Determinant, line 270 *)
| ErrInvNotSquare    (* Inverse, line 312 *)
| ErrDetZero.        (* Inverse, line 321 *)

(** The text carried by each error value. *)
Definition Error (e : error) : string :=
  match e with
  | ErrRowTooHigh => "row number is higher than the matrix's lines"
  | ErrColumnTooHigh => "column number is higher than the matrix's columns"
  | ErrInvalidRow => "invalid row"
  | ErrInvalidColumn => "invalid column"
  | ErrSizeNotSame => "Matrix size is not the same"
  | ErrProductShape =>
      "matrix B number of lines id different of matrix A number of columns"
  | ErrLUNotSquare =>
      "matrix can't be decomposed, number of lines and columns are different"
  | ErrEmptyMatrix => "empty matrix"
  | ErrDetNotSquare => "matrix must be square"
  | ErrInvNotSquare => "matrix musts be square"
  | ErrDetZero => "determinant is zero. Matrix cannot be inverted"
  end%string.

Inductive result (A : Type) : Type :=
| Ok of A
| Err of error
| Panic.

Arguments Err {A} e.
Arguments Panic {A}.

Definition bind (A B : Type) (c : result A) (k : A -> result B) : result B :=
  match c with
  | Ok a => k a
  | Err e => Err e
  | Panic => Panic
  end.

Notation "'let*' x ':=' c 'in' k" := (bind c (fun x => k))
  (at level 10, x name, c at level 100, k at level 200).

Fixpoint mapM (A B : Type) (f : A -> result B) (xs : seq A) : result (seq B) :=
  match xs with
  | [::] => Ok [::]
  | x :: xs' => let* y := f x in let* ys := mapM f xs' in Ok (y :: ys)
  end.

Fixpoint foldM (A St : Type) (f : St -> A -> result St) (s : St) (xs : seq A)
  : result St :=
  match xs with
  | [::] => Ok s
  | x :: xs' => let* s' := f s x in foldM f s' xs'
  end.

(** [s[i]] on a Go slice: the element, or an index-out-of-range panic. *)
Fixpoint index (A : Type) (s : seq A) (i : nat) : result A :=
  match s, i with
  | [::], _ => Panic
  | x :: _, 0 => Ok x
  | _ :: s', i'.+1 => index s' i'
  end.

(** The same with a Go [int] index, which may be negative. *)
Definition zindex (A : Type) (s : seq A) (i : Z) : result A :=
  if (i <? 0)%Z then Panic else index s (Z.to_nat i).

(* ===================================================================== *)
(** * Scalars *)
(* ===================================================================== *)

(** The operations [matrix.go] applies to [float64] values. [!=] is the
    negation of [==], as in Go. *)
Record scalar : Type := Scalar {
  carrier :> Type;
  fzero : carrier;
  fone : carrier;
  fadd : carrier -> carrier -> carrier;
  fsub : carrier -> carrier -> carrier;
  fmul : carrier -> carrier -> carrier;
  fdiv : carrier -> carrier -> carrier;
  feq : carrier -> carrier -> bool;
  flt : carrier -> carrier -> bool
}.

(** Go's [float64]: binary64 with round-to-nearest-even, every operation
    rounded on its own (no fused multiply-add, as on amd64). *)
Definition float64 : scalar :=
  Scalar 0%float 1%float PrimFloat.add PrimFloat.sub PrimFloat.mul
         PrimFloat.div PrimFloat.eqb PrimFloat.ltb.

(** The same interface over an ordered field: arithmetic without rounding. *)
Definition exact (F : numFieldType) : scalar :=
  @Scalar F 0%R 1%R +%R (fun x y => x - y)%R *%R (fun x y => x / y)%R
          (fun x y => x == y) (fun x y => (x < y)%R).

(* ===================================================================== *)
(** * The Matrix type and its constructors *)
(* ===================================================================== *)

Record Matrix (T : Type) : Type := mkMatrix {
  lines : nat;
  columns : nat;
  data : seq (seq T)
}.

Section Engine.

Variable S : scalar.
Local Abbreviation T := (carrier S).
Local Abbreviation grid := (seq (seq T)).

Definition empty_matrix : Matrix T := mkMatrix 0 0 [::].

(** Scratch storage made by [make] and indexed by loop counters that range
    over its allocated extent: reads and writes in place. *)
Definition make_grid (r c : nat) : grid := nseq r (nseq c (fzero S)).

Definition get2 (g : grid) (i j : nat) : T := nth (fzero S) (nth [::] g i) j.

Definition set2 (g : grid) (i j : nat) (v : T) : grid :=
  set_nth [::] g i (set_nth (fzero S) (nth [::] g i) j v).

(** [m.data[i][j]] on a grid that came from the caller. *)
Definition at2 (d : grid) (i j : nat) : result T :=
  let* row := index d i in index row j.

(** A fresh [r] by [c] grid whose entry [(i, j)] is assigned [f i j], rows
    in increasing [i], entries in increasing [j]:
    [result := make(r); for i { result[i] = make(c); for j { result[i][j] = f } }]. *)
Definition build (r c : nat) (f : nat -> nat -> result T) : result grid :=
  mapM (fun i => mapM (fun j => f i j) (iota 0 c)) (iota 0 r).

Definition NullMatrix (size : nat) : Matrix T :=
  mkMatrix size size (make_grid size size).

Definition NewIdentityMatrix (size : nat) : Matrix T :=
  mkMatrix size size
    (mkseq (fun i => set_nth (fzero S) (nseq size (fzero S)) i (fone S)) size).

Definition NewMatrix (d : grid) : Matrix T :=
  if size d == 0 then empty_matrix
  else if size (head [::] d) == 0 then empty_matrix
  else mkMatrix (size d) (size (head [::] d)) d.

Definition Lines (m : Matrix T) : nat := lines m.
Definition Columns (m : Matrix T) : nat := columns m.

(* ===================================================================== *)
(** * Accessor and elementwise operations *)
(* ===================================================================== *)

Definition Position (m : Matrix T) (row col : Z) : result T :=
  if (Z.of_nat (lines m) <? row)%Z then Err ErrRowTooHigh
  else if (Z.of_nat (columns m) <? col)%Z then Err ErrColumnTooHigh
  else if (row =? 0)%Z then Err ErrInvalidRow
  else if (col =? 0)%Z then Err ErrInvalidColumn
  else let* r := zindex (data m) (row - 1) in zindex r (col - 1).

Definition Sum (m B : Matrix T) : result (Matrix T) :=
  if (lines m != lines B) || (columns m != columns B) then Err ErrSizeNotSame
  else
    let* res := build (lines m) (columns m) (fun i j =>
                  let* a := at2 (data m) i j in
                  let* b := at2 (data B) i j in
                  Ok (fadd a b)) in
    Ok (NewMatrix res).

Definition Sub (m B : Matrix T) : result (Matrix T) :=
  if (lines m != lines B) || (columns m != columns B) then Err ErrSizeNotSame
  else
    let* res := build (lines m) (columns m) (fun i j =>
                  let* a := at2 (data m) i j in
                  let* b := at2 (data B) i j in
                  Ok (fsub a b)) in
    Ok (NewMatrix res).

Definition ScalarProduct (m : Matrix T) (k : T) : result (Matrix T) :=
  let* res := build (lines m) (columns m) (fun i j =>
                let* a := at2 (data m) i j in Ok (fmul a k)) in
  Ok (NewMatrix res).

Definition Transpose (m : Matrix T) : result (Matrix T) :=
  let* res := build (columns m) (lines m) (fun i j => at2 (data m) j i) in
  Ok (NewMatrix res).

(** [data[i][j]] starts at the zero [make] left there and accumulates the
    products for [k = 0 .. m.columns-1]. *)
Definition Product (m B : Matrix T) : result (Matrix T) :=
  if columns m != Lines B then Err ErrProductShape
  else
    let* res := build (lines m) (columns B) (fun i j =>
                  foldM (fun acc k =>
                           let* a := at2 (data m) i k in
                           let* b := at2 (data B) k j in
                           Ok (fadd acc (fmul a b)))
                        (fzero S) (iota 0 (Columns m))) in
    Ok (NewMatrix res).

(* ===================================================================== *)
(** * LU decomposition (Doolittle) *)
(* ===================================================================== *)

(** [sum := 0.; for j := 0; j < i; j++ { sum += l[r][j] * u[j][c] }] *)
Definition lu_sum (l u : grid) (i r c : nat) : T :=
  foldl (fun sum j => fadd sum (fmul (get2 l r j) (get2 u j c)))
        (fzero S) (iota 0 i).

(** The "upper triangular" loop of iteration [i] (lines 226-236). *)
Definition LU_upper (m : Matrix T) (i : nat) (l u : grid) : result grid :=
  foldM (fun u k =>
           let sum := lu_sum l u i i k in
           let* a := at2 (data m) i k in
           Ok (set2 u i k (fsub a sum)))
        u (iota 0 (lines m)).

(** The "lower triangular" loop of iteration [i] (lines 239-256). *)
Definition LU_lower (m : Matrix T) (i : nat) (l u : grid) : result grid :=
  foldM (fun l k =>
           if i == k then Ok (set2 l i i (fone S))
           else
             let sum := lu_sum l u i k i in
             if feq (get2 u i i) (fzero S) then Ok (set2 l k i (fzero S))
             else
               let* a := at2 (data m) k i in
               Ok (set2 l k i (fdiv (fsub a sum) (get2 u i i))))
        l (iota 0 (lines m)).

Definition LU_step (m : Matrix T) (st : grid * grid) (i : nat)
  : result (grid * grid) :=
  let: (l, u) := st in
  let* u' := LU_upper m i l u in
  let* l' := LU_lower m i l u' in
  Ok (l', u').

Definition LU (m : Matrix T) : result (Matrix T * Matrix T) :=
  if lines m != columns m then Err ErrLUNotSquare
  else
    let l_data := make_grid (lines m) (lines m) in
    let u_data := make_grid (lines m) (lines m) in
    let* st := foldM (LU_step m) (l_data, u_data) (iota 0 (lines m)) in
    Ok (NewMatrix st.1, NewMatrix st.2).

(* ===================================================================== *)
(** * Determinant, equality, inverse *)
(* ===================================================================== *)

Definition Determinant (m : Matrix T) : result T :=
  if (lines m == 0) || (columns m == 0) then Err ErrEmptyMatrix
  else if lines m != columns m then Err ErrDetNotSquare
  else if lines m == 1 then at2 (data m) 0 0
  else if lines m == 2 then
    let* a00 := at2 (data m) 0 0 in
    let* a11 := at2 (data m) 1 1 in
    let* a01 := at2 (data m) 0 1 in
    let* a10 := at2 (data m) 1 0 in
    Ok (fsub (fmul a00 a11) (fmul a01 a10))
  else
    match LU m with
    | Ok (_, U) =>
        foldM (fun diag i => let* x := at2 (data U) i i in Ok (fmul diag x))
              (fone S) (iota 0 (lines U))
    | _ => Panic   (* the error is dropped and [U] is nil *)
    end.

(** The two nested loops of [Equals], leaving at the first difference. *)
Definition Equals_from (m B : Matrix T) : result bool :=
  foldr (fun i rest =>
           foldr (fun j rest' =>
                    let* a := at2 (data m) i j in
                    let* b := at2 (data B) i j in
                    if ~~ feq a b then Ok false else rest')
                 rest (iota 0 (columns m)))
        (Ok true) (iota 0 (lines m)).

Definition Equals (m B : Matrix T) : result bool :=
  if (lines m != lines B) || (columns m != columns B) then Ok false
  else Equals_from m B.

(** Lines 333-352: the [order] by [2*order] scratch grid, left half copied
    from [m.data], then a 1 at [(i, i+order)]. *)
Definition augment (m : Matrix T) : result grid :=
  let order := lines m in
  let* a := foldM (fun g i =>
                     foldM (fun g j =>
                              let* x := at2 (data m) i j in
                              Ok (set2 g i j x))
                           g (iota 0 order))
                  (make_grid order (order * 2)) (iota 0 order) in
  Ok (foldl (fun g i =>
               foldl (fun g j => if j == i + order then set2 g i j (fone S)
                                 else g)
                     g (iota 0 (order * 2)))
            a (iota 0 order)).

(** [tempSlice := g[i]; g[i] = g[i-1]; g[i-1] = tempSlice] *)
Definition swap_rows (g : grid) (i : nat) : grid :=
  let tempSlice := nth [::] g i in
  set_nth [::] (set_nth [::] g i (nth [::] g i.-1)) i.-1 tempSlice.

(** Lines 355-361: [for i := order - 1; i > 0; i--]. *)
Definition interchange (order : nat) (g : grid) : grid :=
  foldl (fun g i => if flt (get2 g i.-1 0) (get2 g i 0) then swap_rows g i
                    else g)
        g (rev (iota 1 order.-1)).

(** Lines 364-373. *)
Definition eliminate (order : nat) (g : grid) : grid :=
  foldl (fun g i =>
           foldl (fun g j =>
                    if j != i then
                      let temp := fdiv (get2 g j i) (get2 g i i) in
                      foldl (fun g k =>
                               set2 g j k
                                 (fsub (get2 g j k) (fmul (get2 g i k) temp)))
                            g (iota 0 (order * 2))
                    else g)
                 g (iota 0 order))
        g (iota 0 order).

(** Lines 375-380. *)
Definition normalize (order : nat) (g : grid) : grid :=
  foldl (fun g i =>
           let temp := get2 g i i in
           foldl (fun g j => set2 g i j (fdiv (get2 g i j) temp))
                 g (iota 0 (order * 2)))
        g (iota 0 order).

(** Lines 383-389. *)
Definition extract (order : nat) (g : grid) : grid :=
  mkseq (fun i => mkseq (fun j => get2 g i (order + j)) order) order.

Definition Inverse (m : Matrix T) : result (Matrix T) :=
  if lines m != columns m then Err ErrInvNotSquare
  else
    let* det := Determinant m in
    if feq det (fzero S) then Err ErrDetZero
    else
      let order := lines m in
      let* augmented := augment m in
      let augmented := interchange order augmented in
      let augmented := eliminate order augmented in
      let augmented := normalize order augmented in
      Ok (NewMatrix (extract order augmented)).

End Engine.

Arguments empty_matrix S : clear implicits.
Arguments make_grid S r c : clear implicits.
Arguments NullMatrix S size : clear implicits.
Arguments NewIdentityMatrix S size : clear implicits.
Arguments NewMatrix S d : clear implicits.

(* ===================================================================== *)
(** * The same operations on an explicit store *)
(* ===================================================================== *)

(** To speak about mutation, the operations are written a second time over
    a store of Go objects: the backing arrays of [[]float64] rows, the
    backing arrays of [[][]float64] grids (arrays of row slices, which may
    alias), and [Matrix] structs reached through [*Matrix] pointers.
    Addresses are indices in the store and [make]/[&Matrix{...}] allocate
    at its end.  Every read and every write of [matrix.go] appears here in
    program order; counted loops read their bound when they start. *)
Module Heap.

Section Store.

Variable S : scalar.
Local Abbreviation T := (carrier S).

(** A slice value: nil, or the address of its backing array.  No slice of
    [matrix.go] is resliced, so a slice spans its whole array. *)
Definition slice : Type := option nat.

Inductive cell : Type :=
| CRow of seq T                 (* backing array of a []float64 *)
| COuter of seq slice           (* backing array of a [][]float64 *)
| CStruct of nat & nat & slice. (* a Matrix: lines, columns, data *)

Definition heap : Type := seq cell.

(** Computations: a result and the store the call leaves behind, also when
    it returns an error or panics. *)
Definition M (A : Type) : Type := heap -> result A * heap.

Definition ret (A : Type) (a : A) : M A := fun h => (Ok a, h).
Definition raise (A : Type) (e : error) : M A := fun h => (Err e, h).
Definition panic (A : Type) : M A := fun h => (Panic, h).
Definition lift (A : Type) (r : result A) : M A := fun h => (r, h).

Definition mbind (A B : Type) (c : M A) (k : A -> M B) : M B :=
  fun h => match c h with
           | (Ok a, h') => k a h'
           | (Err e, h') => (Err e, h')
           | (Panic, h') => (Panic, h')
           end.

Notation "'do*' x ':=' c 'in' k" := (mbind c (fun x => k))
  (at level 10, x name, c at level 100, k at level 200).

Definition alloc (c : cell) : M nat := fun h => (Ok (size h), rcons h c).

Definition load (a : nat) : M cell := fun h => (index h a, h).

Definition store (a : nat) (c : cell) : M unit :=
  fun h => if a < size h then (Ok tt, set_nth c h a c) else (Panic, h).

Fixpoint forM (xs : seq nat) (body : nat -> M unit) : M unit :=
  match xs with
  | [::] => ret tt
  | x :: xs' => do* _ := body x in forM xs' body
  end.

Fixpoint foldM (St : Type) (xs : seq nat) (body : St -> nat -> M St) (s : St)
  : M St :=
  match xs with
  | [::] => ret s
  | x :: xs' => do* s' := body s x in foldM xs' body s'
  end.

(** A loop whose body may [return] from the enclosing function. *)
Fixpoint firstM (B : Type) (xs : seq nat) (body : nat -> M (option B))
  : M (option B) :=
  match xs with
  | [::] => ret None
  | x :: xs' => do* r := body x in
                if r is Some b then ret (Some b) else firstM xs' body
  end.

(** ** Slices *)

Definition load_row (s : slice) : M (seq T) :=
  if s is Some a then
    do* c := load a in if c is CRow xs then ret xs else panic _
  else ret [::].

Definition load_outer (s : slice) : M (seq slice) :=
  if s is Some a then
    do* c := load a in if c is COuter rs then ret rs else panic _
  else ret [::].

Definition len_row (s : slice) : M nat :=
  do* xs := load_row s in ret (size xs).

Definition len_outer (s : slice) : M nat :=
  do* rs := load_outer s in ret (size rs).

Definition row_get (s : slice) (j : nat) : M T :=
  do* xs := load_row s in lift (index xs j).

Definition outer_get (s : slice) (i : nat) : M slice :=
  do* rs := load_outer s in lift (index rs i).

Definition row_set (s : slice) (j : nat) (v : T) : M unit :=
  do* xs := load_row s in
  if j < size xs then
    if s is Some a then store a (CRow (set_nth (fzero S) xs j v))
    else panic _
  else panic _.

Definition outer_set (s : slice) (i : nat) (r : slice) : M unit :=
  do* rs := load_outer s in
  if i < size rs then
    if s is Some a then store a (COuter (set_nth None rs i r))
    else panic _
  else panic _.

(** [d[i][j]] and [d[i][j] = v]. *)
Definition get2 (d : slice) (i j : nat) : M T :=
  do* r := outer_get d i in row_get r j.

Definition set2 (d : slice) (i j : nat) (v : T) : M unit :=
  do* r := outer_get d i in row_set r j v.

Definition make_row (n : nat) : M slice :=
  do* a := alloc (CRow (nseq n (fzero S))) in ret (Some a).

Definition make_outer (n : nat) : M slice :=
  do* a := alloc (COuter (nseq n None)) in ret (Some a).

(** ** Fields of a [*Matrix] *)

Definition load_struct (m : nat) : M (nat * nat * slice) :=
  do* c := load m in
  if c is CStruct l c d then ret (l, c, d) else panic _.

Definition lines (m : nat) : M nat :=
  do* s := load_struct m in ret s.1.1.

Definition columns (m : nat) : M nat :=
  do* s := load_struct m in ret s.1.2.

Definition data (m : nat) : M slice :=
  do* s := load_struct m in ret s.2.

Definition set_lines (m : nat) (v : nat) : M unit :=
  do* s := load_struct m in store m (CStruct v s.1.2 s.2).

Definition set_columns (m : nat) (v : nat) : M unit :=
  do* s := load_struct m in store m (CStruct s.1.1 v s.2).

(** ** Constructors *)

(** The address of the package-level [empty_matrix]. *)
Variable empty_matrix : nat.

Definition NullMatrix (size : nat) : M nat :=
  do* d := make_outer size in
  do* n := len_outer d in
  do* _ := forM (iota 0 n) (fun i =>
             do* r := make_row size in outer_set d i r) in
  alloc (CStruct size size d).

Definition NewIdentityMatrix (size : nat) : M nat :=
  do* d := make_outer size in
  do* n := len_outer d in
  do* _ := forM (iota 0 n) (fun i =>
             do* r := make_row size in
             do* _ := outer_set d i r in
             set2 d i i (fone S)) in
  alloc (CStruct size size d).

Definition NewMatrix (d : slice) : M nat :=
  do* m := alloc (CStruct 0 0 d) in
  do* n := len_outer d in
  if n == 0 then ret empty_matrix
  else
    do* _ := set_lines m n in
    do* r0 := outer_get d 0 in
    do* c := len_row r0 in
    if c == 0 then ret empty_matrix
    else
      do* _ := set_columns m c in
      ret m.

(** ** Operations *)

(** [s[i]] with a Go [int] index, on each of the two levels of a grid. *)
Definition zouter_get (s : slice) (i : Z) : M slice :=
  do* rs := load_outer s in lift (zindex rs i).

Definition zrow_get (s : slice) (j : Z) : M T :=
  do* xs := load_row s in lift (zindex xs j).

Definition Position (m : nat) (row col : Z) : M T :=
  do* lm := lines m in
  if (Z.of_nat lm <? row)%Z then raise _ ErrRowTooHigh
  else
    do* cm := columns m in
    if (Z.of_nat cm <? col)%Z then raise _ ErrColumnTooHigh
    else if (row =? 0)%Z then raise _ ErrInvalidRow
    else if (col =? 0)%Z then raise _ ErrInvalidColumn
    else
      do* dm := data m in
      do* r := zouter_get dm (row - 1) in
      zrow_get r (col - 1).

(** [result := make(rows); for i := range result {
      result[i] = make(cols); for j := range result[i] { body } }] *)
Definition fill_new (rows : nat) (cols : M nat)
           (body : slice -> nat -> nat -> M unit) : M slice :=
  do* result := make_outer rows in
  do* n := len_outer result in
  do* _ := forM (iota 0 n) (fun i =>
             do* c := cols in
             do* r := make_row c in
             do* _ := outer_set result i r in
             do* ri := outer_get result i in
             do* nj := len_row ri in
             forM (iota 0 nj) (fun j => body result i j)) in
  ret result.

(** [m.lines != B.lines || m.columns != B.columns] *)
Definition shape_differs (m B : nat) : M bool :=
  do* lm := lines m in do* lB := lines B in
  if lm != lB then ret true
  else do* cm := columns m in do* cB := columns B in ret (cm != cB).

Definition Sum (m B : nat) : M nat :=
  do* differs := shape_differs m B in
  if differs then raise _ ErrSizeNotSame
  else
    do* lm := lines m in
    do* result := fill_new lm (columns m) (fun result i j =>
                    do* dm := data m in do* a := get2 dm i j in
                    do* dB := data B in do* b := get2 dB i j in
                    set2 result i j (fadd a b)) in
    NewMatrix result.

Definition Sub (m B : nat) : M nat :=
  do* differs := shape_differs m B in
  if differs then raise _ ErrSizeNotSame
  else
    do* lm := lines m in
    do* result := fill_new lm (columns m) (fun result i j =>
                    do* dm := data m in do* a := get2 dm i j in
                    do* dB := data B in do* b := get2 dB i j in
                    set2 result i j (fsub a b)) in
    NewMatrix result.

Definition ScalarProduct (m : nat) (scalar : T) : M nat :=
  do* lm := lines m in
  do* result := fill_new lm (columns m) (fun result i j =>
                  do* dm := data m in do* a := get2 dm i j in
                  set2 result i j (fmul a scalar)) in
  NewMatrix result.

Definition Transpose (m : nat) : M nat :=
  do* cm := columns m in
  do* result := fill_new cm (lines m) (fun result i j =>
                  do* dm := data m in do* a := get2 dm j i in
                  set2 result i j a) in
  NewMatrix result.

Definition Product (m B : nat) : M nat :=
  do* cm := columns m in do* lB := lines B in
  if cm != lB then raise _ ErrProductShape
  else
    do* lm := lines m in
    do* result := fill_new lm (columns B) (fun result i j =>
                    do* cm := columns m in
                    forM (iota 0 cm) (fun k =>
                      do* x := get2 result i j in
                      do* dm := data m in do* a := get2 dm i k in
                      do* dB := data B in do* b := get2 dB k j in
                      set2 result i j (fadd x (fmul a b)))) in
    NewMatrix result.

(** [sum := 0.; for j := 0; j < i; j++ { sum += l[r][j] * u[j][c] }] *)
Definition lu_sum (l u : slice) (i r c : nat) : M T :=
  foldM (iota 0 i) (fun sum j =>
           do* x := get2 l r j in do* y := get2 u j c in
           ret (fadd sum (fmul x y)))
        (fzero S).

Definition LU (m : nat) : M (nat * nat) :=
  do* lm := lines m in do* cm := columns m in
  if lm != cm then raise _ ErrLUNotSquare
  else
    do* lm := lines m in
    do* l_data := make_outer lm in
    do* lm := lines m in
    do* u_data := make_outer lm in
    do* n := len_outer l_data in
    do* _ := forM (iota 0 n) (fun i =>
               do* lm := lines m in
               do* rl := make_row lm in
               do* _ := outer_set l_data i rl in
               do* lm := lines m in
               do* ru := make_row lm in
               outer_set u_data i ru) in
    do* lm := lines m in
    do* _ := forM (iota 0 lm) (fun i =>
               do* lm := lines m in
               do* _ := forM (iota 0 lm) (fun k =>
                          do* sum := lu_sum l_data u_data i i k in
                          do* dm := data m in do* a := get2 dm i k in
                          set2 u_data i k (fsub a sum)) in
               do* lm := lines m in
               forM (iota 0 lm) (fun k =>
                 if i == k then set2 l_data i i (fone S)
                 else
                   do* sum := lu_sum l_data u_data i k i in
                   do* uii := get2 u_data i i in
                   if feq uii (fzero S) then set2 l_data k i (fzero S)
                   else
                     do* dm := data m in do* a := get2 dm k i in
                     do* uii := get2 u_data i i in
                     set2 l_data k i (fdiv (fsub a sum) uii))) in
    do* L := NewMatrix l_data in
    do* U := NewMatrix u_data in
    ret (L, U).

(** [_, U, _ := m.LU()]: the error is dropped, and a nil [U] is then
    dereferenced. *)
Definition drop_error (A : Type) (c : M A) : M A :=
  fun h => match c h with
           | (Err _, h') => (Panic, h')
           | r => r
           end.

Definition Determinant (m : nat) : M T :=
  do* lm := lines m in
  do* cm := (if lm == 0 then ret 0 else columns m) in
  if (lm == 0) || (cm == 0) then raise _ ErrEmptyMatrix
  else
    do* lm := lines m in do* cm := columns m in
    if lm != cm then raise _ ErrDetNotSquare
    else
      do* lm := lines m in
      if lm == 1 then do* dm := data m in get2 dm 0 0
      else
        do* lm := lines m in
        if lm == 2 then
          do* dm := data m in do* a00 := get2 dm 0 0 in
          do* dm := data m in do* a11 := get2 dm 1 1 in
          do* dm := data m in do* a01 := get2 dm 0 1 in
          do* dm := data m in do* a10 := get2 dm 1 0 in
          ret (fsub (fmul a00 a11) (fmul a01 a10))
        else
          do* LU_ := drop_error (LU m) in
          do* lU := lines LU_.2 in
          foldM (iota 0 lU) (fun diag i =>
                   do* dU := data LU_.2 in do* x := get2 dU i i in
                   ret (fmul diag x))
                (fone S).

Definition Equals (m B : nat) : M bool :=
  do* differs := shape_differs m B in
  if differs then ret false
  else
    do* lm := lines m in
    do* r := firstM (iota 0 lm) (fun i =>
               do* cm := columns m in
               firstM (iota 0 cm) (fun j =>
                 do* dm := data m in do* a := get2 dm i j in
                 do* dB := data B in do* b := get2 dB i j in
                 if ~~ feq a b then ret (Some false) else ret None)) in
    ret (if r is Some b then b else true).

Definition Inverse (m : nat) : M nat :=
  do* lm := lines m in do* cm := columns m in
  if lm != cm then raise _ ErrInvNotSquare
  else
    do* det := Determinant m in
    if feq det (fzero S) then raise _ ErrDetZero
    else
      do* order := lines m in
      do* augmented := make_outer order in
      do* n := len_outer augmented in
      do* _ := forM (iota 0 n) (fun i =>
                 do* r := make_row (order * 2) in
                 do* _ := outer_set augmented i r in
                 forM (iota 0 order) (fun j =>
                   do* dm := data m in do* a := get2 dm i j in
                   set2 augmented i j a)) in
      do* _ := forM (iota 0 order) (fun i =>
                 forM (iota 0 (order * 2)) (fun j =>
                   if j == i + order then set2 augmented i j (fone S)
                   else ret tt)) in
      do* _ := forM (rev (iota 1 order.-1)) (fun i =>
                 do* x := get2 augmented i.-1 0 in
                 do* y := get2 augmented i 0 in
                 if flt x y then
                   do* tempSlice := outer_get augmented i in
                   do* prev := outer_get augmented i.-1 in
                   do* _ := outer_set augmented i prev in
                   outer_set augmented i.-1 tempSlice
                 else ret tt) in
      do* _ := forM (iota 0 order) (fun i =>
                 forM (iota 0 order) (fun j =>
                   if j != i then
                     do* aji := get2 augmented j i in
                     do* aii := get2 augmented i i in
                     let temp := fdiv aji aii in
                     forM (iota 0 (order * 2)) (fun k =>
                       do* ajk := get2 augmented j k in
                       do* aik := get2 augmented i k in
                       set2 augmented j k (fsub ajk (fmul aik temp)))
                   else ret tt)) in
      do* _ := forM (iota 0 order) (fun i =>
                 do* temp := get2 augmented i i in
                 forM (iota 0 (order * 2)) (fun j =>
                   do* x := get2 augmented i j in
                   set2 augmented i j (fdiv x temp))) in
      do* result_data := fill_new order (ret order) (fun result i j =>
                           do* x := get2 augmented i (order + j) in
                           set2 result i j x) in
      NewMatrix result_data.

(** ** Reading a matrix back from the store *)

Definition read_grid (h : heap) (d : slice) : result (seq (seq T)) :=
  let* rs := (load_outer d h).1 in
  mapM (fun i => let* r := index rs i in (load_row r h).1)
       (iota 0 (size rs)).

Definition read (h : heap) (m : nat) : result (Matrix T) :=
  let* s := (load_struct m h).1 in
  let* g := read_grid h s.2 in
  Ok (mkMatrix s.1.1 s.1.2 g).

(** A composite literal [[][]float64{{...}, ...}]. *)
Fixpoint alloc_rows (g : seq (seq T)) : M (seq slice) :=
  match g with
  | [::] => ret [::]
  | row :: g' =>
      do* a := alloc (CRow row) in
      do* rs := alloc_rows g' in
      ret (Some a :: rs)
  end.

Definition literal (g : seq (seq T)) : M slice :=
  do* rs := alloc_rows g in
  do* a := alloc (COuter rs) in
  ret (Some a).

(** Every cell of [h] is still there, with the same content, in [h']. *)
Definition unchanged (h h' : heap) : Prop := take (size h) h' = h.

End Store.

(** The store when the package is initialised: [empty_matrix] and its
    empty grid, at addresses 1 and 0. *)
Definition init (S : scalar) : heap S :=
  [:: @COuter S [::]; @CStruct S 0 0 (Some 0)].

End Heap.

(* ===================================================================== *)
(** * Well-formed matrices and the ideal (panic-free) reading of the code *)
(* ===================================================================== *)

Section Shapes.

Variable S : scalar.
Local Abbreviation T := (carrier S).
Local Abbreviation grid := (seq (seq T)).

(** The invariant of the data model: [lines] rows of [columns] entries each,
    and a zero dimension only in the 0 by 0 matrix. *)
Definition wf (m : Matrix T) : bool :=
  [&& size (data m) == lines m,
      all (fun row => size row == columns m) (data m)
    & (lines m == 0) == (columns m == 0)].

(** The [r] by [c] grid with entry [g i j] at [(i, j)]. *)
Definition tab (r c : nat) (g : nat -> nat -> T) : grid :=
  mkseq (fun i => mkseq (fun j => g i j) c) r.

(** Entry [(i, j)] of a matrix, 0-based. *)
Definition entry (m : Matrix T) (i j : nat) : T := get2 (data m) i j.

Definition same_shape (m B : Matrix T) : bool :=
  (lines m == lines B) && (columns m == columns B).

(** [g] has [r] rows of [c] entries. *)
Definition shape (r c : nat) (g : grid) : bool :=
  (size g == r) && all (fun row => size row == c) g.

(** Entrywise comparison of two grids of a given extent. *)
Definition all2 (r c : nat) (p : nat -> nat -> bool) : bool :=
  all (fun i => all (fun j => p i j) (iota 0 c)) (iota 0 r).

(** The inner product the way [Product] accumulates it: from the left,
    starting at zero. *)
Definition dot (n : nat) (a b : nat -> T) : T :=
  foldl (fun acc k => fadd acc (fmul (a k) (b k))) (fzero S) (iota 0 n).

(** The product of the diagonal, accumulated as [Determinant] does. *)
Definition diag_prod (n : nat) (u : grid) : T :=
  foldl (fun diag i => fmul diag (get2 u i i)) (fone S) (iota 0 n).

(** ** The values the loops of [LU] assign *)

(** The value assigned to [u_data[i][k]] (line 235). *)
Definition u_val (m : Matrix T) (l u : grid) (i k : nat) : T :=
  fsub (entry m i k) (lu_sum l u i i k).

(** The value assigned to [l_data[k][i]] (lines 240-254). *)
Definition l_val (m : Matrix T) (l u : grid) (i k : nat) : T :=
  if i == k then fone S
  else if feq (get2 u i i) (fzero S) then fzero S
  else fdiv (fsub (entry m k i) (lu_sum l u i k i)) (get2 u i i).

(** The two inner loops and one outer iteration, with every read of
    [m.data] in range. *)
Definition upper_pure (m : Matrix T) (i : nat) (l u : grid) : grid :=
  foldl (fun u k => set2 u i k (u_val m l u i k)) u (iota 0 (lines m)).

Definition lower_pure (m : Matrix T) (i : nat) (l u : grid) : grid :=
  foldl (fun l k => set2 l k i (l_val m l u i k)) l (iota 0 (lines m)).

Definition step_pure (m : Matrix T) (st : grid * grid) (i : nat)
  : grid * grid :=
  let u' := upper_pure m i st.1 st.2 in (lower_pure m i st.1 u', u').

(** The recurrences of the Doolittle method, read on the final grids. *)
Definition doolittle (m : Matrix T) (l u : grid) (i : nat) : Prop :=
  (forall r c, r < i -> c < lines m -> get2 u r c = u_val m l u r c) /\
  (forall r c, c < i -> r < lines m -> get2 l r c = l_val m l u c r).

(** ** The scratch grid of [Inverse] *)

(** [augment] with every read of [m.data] in range. *)
Definition augment_pure (m : Matrix T) : grid :=
  let order := lines m in
  let a := foldl (fun g i =>
                    foldl (fun g j => set2 g i j (entry m i j))
                          g (iota 0 order))
                 (make_grid S order (order * 2)) (iota 0 order) in
  foldl (fun g i =>
           foldl (fun g j => if j == i + order then set2 g i j (fone S)
                             else g)
                 g (iota 0 (order * 2)))
        a (iota 0 order).

(** Two nested loops that assign [f i j] to the entries selected by [p]. *)
Definition fill (p : nat -> nat -> bool) (f : nat -> nat -> T)
           (rows cols : seq nat) (g : grid) : grid :=
  foldl (fun g i =>
           foldl (fun g j => if p i j then set2 g i j (f i j) else g) g cols)
        g rows.

(** Entry [(i, j)] of an identity matrix. *)
Definition delta (i j : nat) : T := if i == j then fone S else fzero S.

(** The augmented grid [[I | I]] that [Inverse] builds for an identity. *)
Definition aug_id (n : nat) : grid :=
  tab n (n * 2)
      (fun i j => if (j == i) || (j == i + n) then fone S else fzero S).

End Shapes.

(** The handful of binary64 facts about 0 and 1 that the code relies on
    when it runs on an identity matrix. *)
Record unit_laws (S : scalar) : Prop := UnitLaws {
  add_00 : fadd (fzero S) (fzero S) = fzero S;
  mul_00 : fmul (fzero S) (fzero S) = fzero S;
  mul_01 : fmul (fzero S) (fone S) = fzero S;
  mul_10 : fmul (fone S) (fzero S) = fzero S;
  mul_11 : fmul (fone S) (fone S) = fone S;
  sub_00 : fsub (fzero S) (fzero S) = fzero S;
  sub_10 : fsub (fone S) (fzero S) = fone S;
  div_01 : fdiv (fzero S) (fone S) = fzero S;
  div_11 : fdiv (fone S) (fone S) = fone S;
  eq_00 : feq (fzero S) (fzero S) = true;
  eq_11 : feq (fone S) (fone S) = true;
  eq_10 : feq (fone S) (fzero S) = false;
  lt_00 : flt (fzero S) (fzero S) = false;
  lt_10 : flt (fone S) (fzero S) = false
}.

(** No entry of the stored grid is a NaN. *)
Definition nan_free (m : Matrix float64) : bool :=
  all (all (fun x => ~~ PrimFloat.is_nan x)) (data m).

(** ** Triangular factors *)

(** [L] has 1 on its diagonal and 0 above it. *)
Definition unit_lower_triangular (S : scalar) (L : Matrix S) : Prop :=
  forall i j, i < lines L -> j < columns L ->
    (i = j -> feq (entry L i j) (fone S)) /\
    (i < j -> feq (entry L i j) (fzero S)).

(** [U] has 0 below its diagonal. *)
Definition upper_triangular (S : scalar) (U : Matrix S) : Prop :=
  forall i j, i < lines U -> j < columns U ->
    j < i -> feq (entry U i j) (fzero S).

(** Up to index [k]: [L] vanishes above its diagonal, [U] below its own. *)
Definition Lzero (F : fieldType) (L : nat -> nat -> F) (k : nat) : Prop :=
  forall r c, c < k -> r < c -> L r c = 0%R.

Definition Uzero (F : fieldType) (U : nat -> nat -> F) (k : nat) : Prop :=
  forall r c, r < k -> c < r -> U r c = 0%R.

(** The determinant of the upper-left [k] by [k] block. *)
Definition leading_minor (F : numFieldType) (m : Matrix (exact F)) (k : nat)
  : F :=
  (\det (\matrix_(i < k, j < k) entry m i j))%R.

(** ** The statements of the specification, as predicates *)

(** The stated outcome of [LU] on [m]. *)
Definition LU_claim (S : scalar) (m : Matrix S) : Prop :=
  exists L U,
    [/\ LU m = Ok (L, U), unit_lower_triangular L, upper_triangular U
      & exists P, Product L U = Ok P /\ Equals P m = Ok true].

(** The indices [Position] is specified to reject. *)
Definition Position_rejects (S : scalar) (m : Matrix S) (row col : Z) : Prop :=
  (row = 0 \/ col = 0 \/
   Z.of_nat (lines m) < row \/ Z.of_nat (columns m) < col)%Z.

(** The stated behaviour of [Position] at [(row, col)]: an error exactly on
    the rejected indices, the stored value otherwise. *)
Definition Position_claim (S : scalar) (m : Matrix S) (row col : Z) : Prop :=
  ((exists e, Position m row col = Err e) <-> Position_rejects m row col) /\
  (~ Position_rejects m row col ->
   Position m row col
     = Ok (entry m (Z.to_nat (row - 1)) (Z.to_nat (col - 1)))).

(** The stated round trip: both calls succeed and the result [Equals] A. *)
Definition Sum_Sub_claim (S : scalar) (A B : Matrix S) : Prop :=
  exists AB D, [/\ Sum A B = Ok AB, Sub AB B = Ok D & Equals D A = Ok true].

(** Whether [(a + b) - b == a] holds at every position. *)
Definition roundtrip_exact (S : scalar) (A B : Matrix S) : bool :=
  all2 (lines A) (columns A)
       (fun i j => feq (fsub (fadd (entry A i j) (entry B i j)) (entry B i j))
                       (entry A i j)).

(** ** Frame conditions on the store *)

(** A slice is fresh when its backing array lies at or beyond address [n]
    (the size of the store when the operation was called). *)
Definition fresh (n : nat) (s : Heap.slice) : bool :=
  if s is Some a then n <= a else true.

Definition cell_ok (S : scalar) (n : nat) (c : Heap.cell S) : bool :=
  if c is Heap.COuter rs then all (fresh n) rs else true.

(** Grids allocated since the call hold only rows allocated since the
    call. *)
Definition inv (S : scalar) (n : nat) (h : Heap.heap S) : Prop :=
  forall a c, n <= a -> index h a = Ok c -> cell_ok n c.

(** [c] leaves the first [n] cells as they are, keeps [inv], and returns
    values satisfying [Q]. *)
Definition safe (S : scalar) (n : nat) (A : Type) (c : Heap.M S A)
           (Q : A -> Prop) : Prop :=
  forall h, n <= size h -> inv n h ->
    [/\ take n (c h).2 = take n h, size h <= size (c h).2, inv n (c h).2
      & forall a, (c h).1 = Ok a -> Q a].

Definition top (A : Type) (a : A) : Prop := True.

(** [c] returns the store it was given: no write and no allocation, also
    when it returns an error or panics. *)
Definition reads_only (S : scalar) (A : Type) (c : Heap.M S A) : Prop :=
  forall h, (c h).2 = h.

(** ** Concrete matrices *)

(** The matrices of [Test_LU]. *)
Definition A_lu : Matrix float64 :=
  NewMatrix float64 [:: [:: 2; -1; -2]; [:: -4; 6; 3]; [:: -4; -2; 8]]%float.

Definition L_lu : Matrix float64 :=
  NewMatrix float64 [:: [:: 1; 0; 0]; [:: -2; 1; 0]; [:: -2; -1; 1]]%float.

Definition U_lu : Matrix float64 :=
  NewMatrix float64 [:: [:: 2; -1; -2]; [:: 0; 4; -1]; [:: 0; 0; 3]]%float.

(** The matrix of [Test_Inverse]. *)
Definition A_inv : Matrix float64 :=
  NewMatrix float64 [:: [:: 5; 7; 9]; [:: 4; 3; 8]; [:: 7; 5; 6]]%float.

Definition M7 : Matrix float64 := NewMatrix float64 [:: [:: 7%float]].

Definition One : Matrix float64 := NewMatrix float64 [:: [:: 1%float]].

(** 2^53: adding 1 to it rounds back to 2^53. *)
Definition Big : Matrix float64 :=
  NewMatrix float64 [:: [:: 9007199254740992%float]].

Definition NaN1 : Matrix float64 := NewMatrix float64 [:: [:: nan]].

(** A rotation: determinant 1, zero in the first pivot position. *)
Definition Rot : Matrix float64 :=
  NewMatrix float64 [:: [:: 0; 1]; [:: -1; 0]]%float.

(** [[49,0],[1,1]], exactly and in binary64. Its leading principal minors
    are 49 and 49. *)
Definition A49_exact : Matrix (exact rat) :=
  NewMatrix (exact rat) [:: [:: 49%:R; 0]; [:: 1; 1]]%R.

Definition A49 : Matrix float64 :=
  NewMatrix float64 [:: [:: 49; 0]; [:: 1; 1]]%float.

(** [[3,8,2],[2,9,7],[3,3,5]], exactly and in binary64. Its leading
    principal minors are 3, 11 and 118. *)
Definition A3_exact : Matrix (exact rat) :=
  NewMatrix (exact rat)
    [:: [:: 3%:R; 8%:R; 2%:R]; [:: 2%:R; 9%:R; 7%:R]; [:: 3%:R; 3%:R; 5%:R]]%R.

Definition A3 : Matrix float64 :=
  NewMatrix float64 [:: [:: 3; 8; 2]; [:: 2; 9; 7]; [:: 3; 3; 5]]%float.

(** The store after the package is initialised and the grid literal of
    [Test_LU] is built: its rows at addresses 2 to 4, its outer array at 5. *)
Definition store_A_lu : Heap.heap float64 :=
  (Heap.literal (data A_lu) (Heap.init float64)).2.

Section BasicLemmas.

Variable S : scalar.
Local Abbreviation T := (carrier S).
Local Abbreviation grid := (seq (seq T)).

Lemma bindE (A B : Type) (a : A) (k : A -> result B) : bind (Ok a) k = k a.
Proof. by []. Qed.

Lemma index_ok (A : Type) (x0 : A) (s : seq A) (i : nat) :
  i < size s -> index s i = Ok (nth x0 s i).
Proof. by elim: s i => [|x s IH] [|i] //= /IH. Qed.

Lemma index_panic (A : Type) (s : seq A) (i : nat) :
  size s <= i -> index s i = Panic.
Proof. by elim: s i => [|x s IH] [|i] //= /IH. Qed.

Lemma index_okP (A : Type) (s : seq A) (i : nat) (x : A) :
  index s i = Ok x -> i < size s.
Proof. by elim: s i => [|y s IH] [|i] //= /IH. Qed.

Lemma mapM_ok (B : Type) (f : nat -> result B) (g : nat -> B) (xs : seq nat) :
  (forall x, x \in xs -> f x = Ok (g x)) -> mapM f xs = Ok (map g xs).
Proof.
elim: xs => [|x xs IH] //= H.
rewrite H ?mem_head //= IH // => y Hy.
by apply: H; rewrite in_cons Hy orbT.
Qed.

Lemma foldM_ok (St : Type) (f : St -> nat -> result St) (g : St -> nat -> St)
      (s : St) (xs : seq nat) :
  (forall s x, x \in xs -> f s x = Ok (g s x)) ->
  foldM f s xs = Ok (foldl g s xs).
Proof.
elim: xs s => [|x xs IH] s //= H.
rewrite H ?mem_head //= IH // => s' y Hy.
by apply: H; rewrite in_cons Hy orbT.
Qed.

Lemma foldM_cat (A St : Type) (f : St -> A -> result St) (s : St)
      (xs ys : seq A) :
  foldM f s (xs ++ ys) = let* s' := foldM f s xs in foldM f s' ys.
Proof. by elim: xs s => [|x xs IH] s //=; case: (f s x). Qed.

Lemma build_ok (r c : nat) (f : nat -> nat -> result T) (g : nat -> nat -> T) :
  (forall i j, i < r -> j < c -> f i j = Ok (g i j)) ->
  build r c f = Ok (tab r c g).
Proof.
move=> H; rewrite /build /tab /mkseq.
apply: mapM_ok => i; rewrite mem_iota add0n /= => Hi.
by apply: mapM_ok => j; rewrite mem_iota add0n /= => Hj; apply: H.
Qed.

Lemma size_tab (r c : nat) (g : nat -> nat -> T) : size (tab r c g) = r.
Proof. by rewrite /tab size_mkseq. Qed.

Lemma get2_tab (r c : nat) (g : nat -> nat -> T) (i j : nat) :
  i < r -> j < c -> get2 (tab r c g) i j = g i j.
Proof.
move=> Hi Hj; rewrite /get2 /tab (nth_mkseq _ _ Hi).
by rewrite (nth_mkseq _ _ Hj).
Qed.

Lemma all_size_tab (r c : nat) (g : nat -> nat -> T) :
  all (fun row : seq T => size row == c) (tab r c g).
Proof.
apply/(all_nthP [::]) => i; rewrite size_mkseq => Hi.
by rewrite (nth_mkseq _ _ Hi) size_mkseq.
Qed.

Lemma NewMatrix_tab (r c : nat) (g : nat -> nat -> T) :
  (r == 0) = (c == 0) ->
  NewMatrix S (tab r c g) = mkMatrix r c (tab r c g).
Proof.
rewrite /NewMatrix size_tab; case: r => [|r] /=.
  by move/esym/eqP => ->.
by case: c => [|c] //= _; rewrite size_map size_iota.
Qed.

Lemma wf_tab (r c : nat) (g : nat -> nat -> T) :
  (r == 0) = (c == 0) -> wf (mkMatrix r c (tab r c g)).
Proof.
by move=> H; rewrite /wf /= size_tab eqxx all_size_tab H eqxx.
Qed.

Lemma wf_size (m : Matrix T) : wf m -> size (data m) = lines m.
Proof. by case/and3P => /eqP. Qed.

Lemma wf_row (m : Matrix T) (i : nat) :
  wf m -> i < lines m -> size (nth [::] (data m) i) = columns m.
Proof.
case/and3P => /eqP Hs /(all_nthP [::]) Hr _ Hi.
by apply/eqP/Hr; rewrite Hs.
Qed.

Lemma wf_dims (m : Matrix T) : wf m -> (lines m == 0) = (columns m == 0).
Proof. by case/and3P => _ _ /eqP. Qed.

(** Everything the constructors build from a rectangular grid satisfies
    the invariant. *)
Lemma wf_NewMatrix (d : grid) :
  all (fun row => size row == size (head [::] d)) d -> wf (NewMatrix S d).
Proof.
rewrite /NewMatrix; case: d => [|row d] //=.
case: (size row =P 0) => [//|/eqP Hrow] /andP [_ Hd].
by rewrite /wf /= !eqxx Hd /= (negbTE Hrow).
Qed.

Lemma wf_NullMatrix (k : nat) : wf (NullMatrix S k).
Proof.
rewrite /wf /NullMatrix /make_grid /= size_nseq !eqxx andbT /=.
by apply/(all_nthP [::]) => i; rewrite size_nseq nth_nseq => ->; rewrite size_nseq.
Qed.

Lemma at2_ok (m : Matrix T) (i j : nat) :
  wf m -> i < lines m -> j < columns m ->
  at2 (data m) i j = Ok (entry m i j).
Proof.
move=> Hwf Hi Hj; rewrite /at2 /entry /get2.
rewrite (@index_ok _ [::]) ?wf_size //=.
by rewrite (@index_ok _ (fzero S)) ?wf_row.
Qed.

End BasicLemmas.

(* ===================================================================== *)
(** * What each operation returns on well-formed matrices *)
(* ===================================================================== *)

Section Pure.

Variable S : scalar.
Local Abbreviation T := (carrier S).
Local Abbreviation grid := (seq (seq T)).

Implicit Types m B : Matrix T.

Lemma Sum_ok m B :
  wf m -> wf B -> same_shape m B ->
  Sum m B = Ok (mkMatrix (lines m) (columns m)
                 (tab (lines m) (columns m)
                      (fun i j => fadd (entry m i j) (entry B i j)))).
Proof.
move=> Hm HB /andP [/eqP Hl /eqP Hc]; rewrite /Sum Hl Hc !eqxx /=.
rewrite (@build_ok _ _ _ _ (fun i j => fadd (entry m i j) (entry B i j))).
  by move=> i j Hi Hj; rewrite !at2_ok // ?Hl ?Hc.
by rewrite bindE NewMatrix_tab // -Hl -Hc wf_dims.
Qed.

Lemma Sub_ok m B :
  wf m -> wf B -> same_shape m B ->
  Sub m B = Ok (mkMatrix (lines m) (columns m)
                 (tab (lines m) (columns m)
                      (fun i j => fsub (entry m i j) (entry B i j)))).
Proof.
move=> Hm HB /andP [/eqP Hl /eqP Hc]; rewrite /Sub Hl Hc !eqxx /=.
rewrite (@build_ok _ _ _ _ (fun i j => fsub (entry m i j) (entry B i j))).
  by move=> i j Hi Hj; rewrite !at2_ok // ?Hl ?Hc.
by rewrite bindE NewMatrix_tab // -Hl -Hc wf_dims.
Qed.

Lemma ScalarProduct_ok m (k : T) :
  wf m ->
  ScalarProduct m k =
    Ok (mkMatrix (lines m) (columns m)
         (tab (lines m) (columns m) (fun i j => fmul (entry m i j) k))).
Proof.
move=> Hm; rewrite /ScalarProduct.
rewrite (@build_ok _ _ _ _ (fun i j => fmul (entry m i j) k)).
  by move=> i j Hi Hj; rewrite at2_ok.
by rewrite bindE NewMatrix_tab // wf_dims.
Qed.

Lemma Transpose_ok m :
  wf m ->
  Transpose m =
    Ok (mkMatrix (columns m) (lines m)
         (tab (columns m) (lines m) (fun i j => entry m j i))).
Proof.
move=> Hm; rewrite /Transpose.
rewrite (@build_ok _ _ _ _ (fun i j => entry m j i)).
  by move=> i j Hi Hj; rewrite at2_ok.
by rewrite bindE NewMatrix_tab // wf_dims.
Qed.

Lemma Product_ok m B :
  wf m -> wf B -> columns m = lines B ->
  Product m B =
    Ok (mkMatrix (lines m) (columns B)
         (tab (lines m) (columns B)
              (fun i j => dot (columns m) (entry m i) (fun k => entry B k j)))).
Proof.
move=> Hm HB Hc; rewrite /Product /Lines /Columns Hc eqxx /=.
rewrite (@build_ok _ _ _ _
          (fun i j => dot (lines B) (entry m i) (fun k => entry B k j))).
  move=> i j Hi Hj; apply: foldM_ok => acc k.
  by rewrite mem_iota add0n /= => Hk; rewrite !at2_ok // Hc.
rewrite bindE NewMatrix_tab //.
by rewrite (wf_dims Hm) Hc (wf_dims HB).
Qed.

Lemma Equals_row m B (i : nat) (rest : result bool) (js : seq nat) :
  wf m -> wf B -> same_shape m B -> i < lines m ->
  all (fun j => j < columns m) js ->
  foldr (fun j rest' =>
           let* a := at2 (data m) i j in
           let* b := at2 (data B) i j in
           if ~~ feq a b then Ok false else rest') rest js
  = if all (fun j => feq (entry m i j) (entry B i j)) js then rest
    else Ok false.
Proof.
move=> Hm HB /andP [/eqP Hl /eqP Hc] Hi.
elim: js => [|j js IH] //= /andP [Hj Hjs].
rewrite !at2_ok // -?Hl -?Hc //= IH //.
by case: (feq _ _).
Qed.

Lemma Equals_ok m B :
  wf m -> wf B -> same_shape m B ->
  Equals m B =
    Ok (all2 (lines m) (columns m)
             (fun i j => feq (entry m i j) (entry B i j))).
Proof.
move=> Hm HB Hsh; rewrite /Equals.
case/andP: (Hsh) => /eqP Hl /eqP Hc; rewrite Hl Hc !eqxx /=.
rewrite /Equals_from /all2 -Hl -Hc.
have: all (fun i => i < lines m) (iota 0 (lines m)).
  by apply/allP => i; rewrite mem_iota add0n.
elim: (iota 0 (lines m)) => [|i rows IH] //= /andP [Hi Hrows].
rewrite Equals_row //.
  by apply/allP => j; rewrite mem_iota add0n.
by case: (all _ _) => //=; apply: IH.
Qed.

Lemma Equals_shape m B : ~~ same_shape m B -> Equals m B = Ok false.
Proof. by rewrite /Equals /same_shape negb_and => ->. Qed.

End Pure.

(* ===================================================================== *)
(** * Scratch grids: reads after writes, shapes *)
(* ===================================================================== *)

Section Grids.

Variable S : scalar.
Local Abbreviation T := (carrier S).
Local Abbreviation grid := (seq (seq T)).

Implicit Types g : grid.

Lemma get2_set2 g (i j : nat) (v : T) (i' j' : nat) :
  get2 (set2 g i j v) i' j' =
    if (i' == i) && (j' == j) then v else get2 g i' j'.
Proof.
rewrite /get2 /set2 nth_set_nth /=; case: (i' =P i) => [->|_] //=.
by rewrite nth_set_nth /=; case: (j' == j).
Qed.

Lemma shape_size r c g : shape r c g -> size g = r.
Proof. by case/andP => /eqP. Qed.

Lemma shape_row r c g (i : nat) :
  shape r c g -> i < r -> size (nth [::] g i) = c.
Proof.
case/andP => /eqP Hs /(all_nthP [::]) Hr Hi.
by apply/eqP/Hr; rewrite Hs.
Qed.

Lemma shapeP r c g :
  size g = r -> (forall i, i < r -> size (nth [::] g i) = c) -> shape r c g.
Proof.
move=> Hs Hr; rewrite /shape Hs eqxx /=.
by apply/(all_nthP [::]) => i; rewrite Hs => /Hr ->.
Qed.

Lemma shape_make r c : shape r c (make_grid S r c).
Proof.
apply: shapeP; first by rewrite size_nseq.
by move=> i Hi; rewrite nth_nseq Hi size_nseq.
Qed.

Lemma get2_make r c (i j : nat) : get2 (make_grid S r c) i j = fzero S.
Proof.
rewrite /get2 /make_grid nth_nseq; case: (i < r); last by rewrite nth_nil.
by rewrite nth_nseq; case: (j < c).
Qed.

Lemma shape_set2 r c g (i j : nat) (v : T) :
  shape r c g -> i < r -> j < c -> shape r c (set2 g i j v).
Proof.
move=> Hg Hi Hj; have Hs := shape_size Hg.
apply: shapeP.
  by rewrite /set2 size_set_nth Hs; apply/maxn_idPr.
move=> k Hk; rewrite /set2 nth_set_nth /=; case: (k =P i) => [_|_].
  by rewrite size_set_nth (shape_row Hg Hi); apply/maxn_idPr.
exact: (shape_row Hg).
Qed.

Lemma shape_tab r c (f : nat -> nat -> T) : shape r c (tab r c f).
Proof. by rewrite /shape size_tab eqxx all_size_tab. Qed.

(** A grid of known shape is the table of its entries. *)
Lemma shape_ext r c g : shape r c g -> g = tab r c (get2 g).
Proof.
move=> Hg; apply: (@eq_from_nth _ [::]).
  by rewrite size_tab (shape_size Hg).
move=> i; rewrite (shape_size Hg) => Hi.
rewrite /tab (nth_mkseq _ _ Hi).
apply: (@eq_from_nth _ (fzero S)).
  by rewrite size_mkseq (shape_row Hg Hi).
move=> j; rewrite (shape_row Hg Hi) => Hj.
by rewrite (nth_mkseq _ _ Hj).
Qed.

Lemma NewMatrix_shape n g :
  shape n n g -> NewMatrix S g = mkMatrix n n g.
Proof.
by move=> Hg; rewrite (shape_ext Hg) NewMatrix_tab.
Qed.

Lemma wf_shape r c g :
  shape r c g -> (r == 0) = (c == 0) -> wf (mkMatrix r c g).
Proof.
by case/andP => Hs Hr Hd; rewrite /wf /= Hs Hr Hd eqxx.
Qed.

Lemma wf_is_shape (m : Matrix T) :
  wf m -> shape (lines m) (columns m) (data m).
Proof. by case/and3P => Hs Hr _; rewrite /shape Hs Hr. Qed.

End Grids.

(* ===================================================================== *)
(** * LU: the values the loops leave in [l_data] and [u_data] *)
(* ===================================================================== *)

Section LUSpec.

Variable S : scalar.
Local Abbreviation T := (carrier S).
Local Abbreviation grid := (seq (seq T)).

Variable m : Matrix T.
Local Abbreviation n := (lines m).
Local Abbreviation u_val := (u_val m).
Local Abbreviation l_val := (l_val m).
Local Abbreviation upper_pure := (upper_pure m).
Local Abbreviation lower_pure := (lower_pure m).
Local Abbreviation step_pure := (step_pure m).
Local Abbreviation doolittle := (doolittle m).

Lemma foldl_ext (St : Type) (f g : St -> nat -> St) (s : St) (xs : seq nat) :
  (forall a x, x \in xs -> f a x = g a x) -> foldl f s xs = foldl g s xs.
Proof.
elim: xs s => [|x xs IH] s //= H.
rewrite H ?mem_head // IH // => a y Hy.
by apply: H; rewrite in_cons Hy orbT.
Qed.

Lemma lu_sum_ext (l u l' u' : grid) (i r c : nat) :
  (forall j, j < i -> get2 l r j = get2 l' r j) ->
  (forall j, j < i -> get2 u j c = get2 u' j c) ->
  lu_sum l u i r c = lu_sum l' u' i r c.
Proof.
move=> Hl Hu; rewrite /lu_sum; apply: foldl_ext => a j.
by rewrite mem_iota add0n /= => Hj; rewrite Hl ?Hu.
Qed.

Lemma u_val_ext (l u l' u' : grid) (i k : nat) :
  (forall j, j < i -> get2 l i j = get2 l' i j) ->
  (forall j, j < i -> get2 u j k = get2 u' j k) ->
  u_val l u i k = u_val l' u' i k.
Proof. by move=> Hl Hu; rewrite /u_val (lu_sum_ext Hl Hu). Qed.

Lemma l_val_ext (l u l' u' : grid) (i k : nat) :
  (forall j, j < i -> get2 l k j = get2 l' k j) ->
  (forall j, j <= i -> get2 u j i = get2 u' j i) ->
  l_val l u i k = l_val l' u' i k.
Proof.
move=> Hl Hu; rewrite /l_val (Hu i) // (@lu_sum_ext l u l' u') //.
by move=> j Hj; apply: Hu; apply: ltnW.
Qed.

Lemma get2_upper (i : nat) (l u : grid) (ks : seq nat) (r c : nat) :
  get2 (foldl (fun u k => set2 u i k (u_val l u i k)) u ks) r c =
    if (r == i) && (c \in ks) then u_val l u i c else get2 u r c.
Proof.
elim: ks u => [|k ks IH] u /=; first by rewrite andbF.
have Hext c' : u_val l (set2 u i k (u_val l u i k)) i c' = u_val l u i c'.
  apply: u_val_ext => // j Hj.
  by rewrite get2_set2 (ltn_eqF Hj).
rewrite IH Hext get2_set2 in_cons.
case: (r == i) => //=; case: (c \in ks); first by rewrite orbT.
by rewrite orbF; case: (c =P k) => [->|].
Qed.

Lemma get2_lower (i : nat) (l u : grid) (ks : seq nat) (r c : nat) :
  get2 (foldl (fun l k => set2 l k i (l_val l u i k)) l ks) r c =
    if (c == i) && (r \in ks) then l_val l u i r else get2 l r c.
Proof.
elim: ks l => [|k ks IH] l /=; first by rewrite andbF.
have Hext r' : l_val (set2 l k i (l_val l u i k)) u i r' = l_val l u i r'.
  apply: l_val_ext => // j Hj.
  by rewrite get2_set2 (ltn_eqF Hj) andbF.
rewrite IH Hext get2_set2 in_cons.
case: (c == i) => /=; last by rewrite andbF.
case: (r \in ks); first by rewrite orbT.
by rewrite orbF andbT; case: (r =P k) => [->|].
Qed.

Lemma shape_foldl_set2 (r c : nat) (g : grid) (ks : seq nat)
      (row col : nat -> nat) (v : grid -> nat -> T) :
  shape r c g ->
  (forall k, k \in ks -> row k < r /\ col k < c) ->
  shape r c (foldl (fun g k => set2 g (row k) (col k) (v g k)) g ks).
Proof.
elim: ks g => [|k ks IH] g //= Hg H.
apply: IH; last by move=> k' Hk'; apply: H; rewrite in_cons Hk' orbT.
by case: (H k (mem_head _ _)) => Hr Hc; apply: shape_set2.
Qed.

Hypothesis Hwf : wf m.
Hypothesis Hsq : lines m = columns m.

Lemma LU_upper_ok (i : nat) (l u : grid) :
  i < n -> LU_upper m i l u = Ok (upper_pure i l u).
Proof.
move=> Hi; apply: foldM_ok => u' k; rewrite mem_iota add0n /= => Hk.
by rewrite at2_ok // -Hsq.
Qed.

Lemma LU_lower_ok (i : nat) (l u : grid) :
  i < n -> LU_lower m i l u = Ok (lower_pure i l u).
Proof.
move=> Hi; apply: foldM_ok => l' k; rewrite mem_iota add0n /= => Hk.
rewrite /l_val; case: (i =P k) => [->|_] //.
by case: (feq _ _) => //; rewrite at2_ok // -Hsq.
Qed.

Lemma LU_step_ok (st : grid * grid) (i : nat) :
  i < n -> LU_step m st i = Ok (step_pure st i).
Proof.
by case: st => l u Hi; rewrite /LU_step LU_upper_ok // bindE LU_lower_ok.
Qed.

Lemma shape_step (st : grid * grid) (i : nat) :
  i < n -> shape n n st.1 -> shape n n st.2 ->
  shape n n (step_pure st i).1 /\ shape n n (step_pure st i).2.
Proof.
move=> Hi Hl Hu; rewrite /step_pure /=; split.
  apply: (@shape_foldl_set2 n n _ _ id (fun=> i)) => // k.
  by rewrite mem_iota add0n.
apply: (@shape_foldl_set2 n n _ _ (fun=> i) id) => // k.
by rewrite mem_iota add0n.
Qed.

Lemma doolittle_step (st : grid * grid) (i : nat) :
  i < n -> doolittle st.1 st.2 i ->
  doolittle (step_pure st i).1 (step_pure st i).2 i.+1.
Proof.
case: st => l u Hi [HU HL]; rewrite /step_pure /=.
set u' := upper_pure i l u; set l' := lower_pure i l u'.
have Hu' r c : get2 u' r c
    = if (r == i) && (c < n) then u_val l u i c else get2 u r c.
  by rewrite /u' /upper_pure get2_upper mem_iota add0n.
have Hl' r c : get2 l' r c
    = if (c == i) && (r < n) then l_val l u' i r else get2 l r c.
  by rewrite /l' /lower_pure get2_lower mem_iota add0n.
have Hlk r c : c < i -> get2 l' r c = get2 l r c.
  by move=> Hc; rewrite Hl' (ltn_eqF Hc).
have Huk r c : r < i -> get2 u' r c = get2 u r c.
  by move=> Hr; rewrite Hu' (ltn_eqF Hr).
split=> r c.
- rewrite ltnS leq_eqVlt => /orP [/eqP -> | Hr] Hc.
    rewrite Hu' eqxx Hc /=; apply: u_val_ext => j Hj.
      by rewrite Hlk.
    by rewrite Huk.
  rewrite Huk // HU //; apply: u_val_ext => j Hj.
    by rewrite Hlk // (ltn_trans Hj).
  by rewrite Huk // (ltn_trans Hj).
- rewrite ltnS leq_eqVlt => /orP [/eqP -> | Hc] Hr.
    rewrite Hl' eqxx Hr /=; apply: l_val_ext => // j Hj.
    by rewrite Hlk.
  rewrite Hlk // HL //; apply: l_val_ext => j Hj.
    by rewrite Hlk // (ltn_trans Hj).
  by rewrite Huk // (leq_ltn_trans Hj).
Qed.

Lemma LU_fold (i : nat) :
  i <= n ->
  let st := foldl step_pure (make_grid S n n, make_grid S n n) (iota 0 i) in
  [/\ foldM (LU_step m) (make_grid S n n, make_grid S n n) (iota 0 i) = Ok st,
      shape n n st.1, shape n n st.2 & doolittle st.1 st.2 i].
Proof.
elim: i => [|i IH] Hi.
  by rewrite /=; split; rewrite ?shape_make //; split.
case: (IH (ltnW Hi)) => Hf Hl Hu Hd.
rewrite -(addn1 i) iotaD add0n foldl_cat foldM_cat Hf bindE /=.
case: (shape_step Hi Hl Hu) => Hl' Hu'.
by split=> //; [rewrite LU_step_ok | rewrite addn1; apply: doolittle_step].
Qed.

(** Generic outcome of [LU] on a well-formed square matrix: it returns two
    [n] by [n] matrices whose entries satisfy the recurrences. *)
Lemma LU_spec :
  exists l u : grid,
    [/\ LU m = Ok (mkMatrix n n l, mkMatrix n n u),
        shape n n l, shape n n u & doolittle l u n].
Proof.
case: (LU_fold (leqnn n)) => Hf Hl Hu Hd.
set st := foldl _ _ _ in Hf Hl Hu Hd.
exists st.1, st.2; split=> //.
by rewrite /LU Hsq eqxx /= -Hsq Hf bindE !(@NewMatrix_shape _ n).
Qed.

End LUSpec.

(* ===================================================================== *)
(** * Equality of matrices *)
(* ===================================================================== *)

Section EqualsLaws.

Variable S : scalar.
Local Abbreviation T := (carrier S).

Implicit Types m B : Matrix T.

Lemma at2_cases (d : seq (seq T)) (i j : nat) :
  at2 d i j = Panic \/ exists x, at2 d i j = Ok x.
Proof.
have Hidx (A : Type) (s : seq A) k : index s k = Panic \/ exists x, index s k = Ok x.
  by elim: s k => [|y s IH] [|k] /=; [left | left | right; exists y | apply: IH].
rewrite /at2; case: (Hidx _ d i) => [->|[row ->]] /=; first by left.
exact: Hidx.
Qed.

Hypothesis feq_sym : forall x y : T, feq x y = feq y x.

Lemma Equals_from_sym m B (rows cols : seq nat) :
  foldr (fun i rest =>
           foldr (fun j rest' =>
                    let* a := at2 (data m) i j in
                    let* b := at2 (data B) i j in
                    if ~~ feq a b then Ok false else rest') rest cols)
        (Ok true) rows
  = foldr (fun i rest =>
           foldr (fun j rest' =>
                    let* a := at2 (data B) i j in
                    let* b := at2 (data m) i j in
                    if ~~ feq a b then Ok false else rest') rest cols)
        (Ok true) rows.
Proof.
have Hin i rest cs :
    foldr (fun j rest' =>
             let* a := at2 (data m) i j in
             let* b := at2 (data B) i j in
             if ~~ feq a b then Ok false else rest') rest cs
  = foldr (fun j rest' =>
             let* a := at2 (data B) i j in
             let* b := at2 (data m) i j in
             if ~~ feq a b then Ok false else rest') rest cs.
  elim: cs => [|j cs IHc] //=; rewrite IHc.
  case: (at2_cases (data m) i j) => [->|[a ->]];
    case: (at2_cases (data B) i j) => [->|[b ->]] //=.
  by rewrite feq_sym.
by elim: rows => [|i rows IH] //=; rewrite IH Hin.
Qed.

Lemma Equals_sym m B : Equals m B = Equals B m.
Proof.
rewrite /Equals (eq_sym (lines B)) (eq_sym (columns B)).
case: (lines m =P lines B) => [Hl|] //=.
case: (columns m =P columns B) => [Hc|] //=.
by rewrite /Equals_from -Hl -Hc; apply: Equals_from_sym.
Qed.

Lemma Equals_refl m :
  wf m ->
  all2 (lines m) (columns m) (fun i j => feq (entry m i j) (entry m i j)) ->
  Equals m m = Ok true.
Proof.
by move=> Hm H; rewrite Equals_ok // ?H // /same_shape !eqxx.
Qed.

End EqualsLaws.

(* ===================================================================== *)
(** * binary64 facts *)
(* ===================================================================== *)

Lemma SFeqb_sym (x y : spec_float) : SFeqb x y = SFeqb y x.
Proof.
rewrite /SFeqb /SFcompare.
case: x => [sx|sx||sx mx ex]; case: y => [sy|sy||sy my ey] //;
  try by case: sx; case: sy.
rewrite (Z.compare_antisym ex ey) (ZC4 my mx).
by case: sx; case: sy => //; case: (ex ?= ey)%Z => //=;
   case: (Pos.compare_cont Eq mx my).
Qed.

Lemma float_eqb_sym (x y : float) : PrimFloat.eqb x y = PrimFloat.eqb y x.
Proof. by rewrite !FloatAxioms.eqb_spec SFeqb_sym. Qed.

Lemma nan_free_entry (m : Matrix float64) (i j : nat) :
  wf m -> nan_free m -> i < lines m -> j < columns m ->
  PrimFloat.eqb (entry m i j) (entry m i j).
Proof.
move=> Hm /(all_nthP [::]) Hn Hi Hj.
have Hi' : i < size (data m) by rewrite (wf_size Hm).
have /(all_nthP 0%float) Hrow := Hn i Hi'.
have Hj' : j < size (nth [::] (data m) i) by rewrite (wf_row Hm Hi).
by have := Hrow j Hj'; rewrite /PrimFloat.is_nan negbK.
Qed.

(* ===================================================================== *)
(** * Determinant and Inverse never panic on well-formed matrices *)
(* ===================================================================== *)

Section Totality.

Variable S : scalar.
Local Abbreviation T := (carrier S).
Local Abbreviation grid := (seq (seq T)).

Implicit Types m : Matrix T.

Lemma Determinant_big m (l u : grid) :
  2 < lines m ->
  lines m = columns m ->
  LU m = Ok (mkMatrix (lines m) (lines m) l, mkMatrix (lines m) (lines m) u) ->
  shape (lines m) (lines m) u ->
  Determinant m = Ok (diag_prod (lines m) u).
Proof.
move=> Hn Hsq HLU Hu; rewrite /Determinant -Hsq eqxx /= orbb.
case: (lines m) Hn HLU Hu => [|[|[|n]]] //= _ -> Hu.
apply: foldM_ok => d i; rewrite mem_iota add0n /= => Hi.
by rewrite (@at2_ok _ (mkMatrix n.+3 n.+3 u)) //; apply: wf_shape.
Qed.

Lemma Determinant_ok m :
  wf m -> lines m = columns m -> 0 < lines m ->
  exists d, Determinant m = Ok d.
Proof.
move=> Hm Hsq Hpos.
case: (ltnP 2 (lines m)) => Hn.
  case: (LU_spec Hm Hsq) => l [u [HLU _ Hu _]].
  by exists (diag_prod (lines m) u); apply: (Determinant_big Hn Hsq HLU Hu).
rewrite /Determinant -Hsq eqxx /= orbb.
move: Hsq Hpos Hn (@at2_ok _ m); case: (lines m) => [|[|[|n]]] //= Hsq _ _ Hat.
  by exists (entry m 0 0); rewrite Hat // -Hsq.
by rewrite !Hat -?Hsq //=; eexists.
Qed.

Lemma Determinant_empty m :
  lines m = 0 -> Determinant m = Err ErrEmptyMatrix.
Proof. by move=> H; rewrite /Determinant H. Qed.

Lemma augment_ok m :
  wf m -> lines m = columns m -> augment m = Ok (augment_pure m).
Proof.
move=> Hm Hsq; rewrite /augment /augment_pure.
set body := (fun g i => foldM _ g _).
rewrite (@foldM_ok _ body
          (fun g i => foldl (fun g j => set2 g i j (entry m i j)) g
                            (iota 0 (lines m)))) //.
move=> g i; rewrite mem_iota add0n /= => Hi; rewrite /body.
apply: foldM_ok => g' j; rewrite mem_iota add0n /= => Hj.
by rewrite at2_ok // -Hsq.
Qed.

(** [Inverse] as a case analysis on the shape and on the determinant. *)
Lemma Inverse_cases m :
  wf m ->
  [/\ lines m <> columns m -> Inverse m = Err ErrInvNotSquare,
      lines m = columns m -> lines m = 0 ->
        Determinant m = Err ErrEmptyMatrix /\ Inverse m = Err ErrEmptyMatrix,
      lines m = columns m -> 0 < lines m ->
        exists d, Determinant m = Ok d /\
          (feq d (fzero S) -> Inverse m = Err ErrDetZero)
    & lines m = columns m -> 0 < lines m ->
        exists d, Determinant m = Ok d /\
          (~~ feq d (fzero S) -> exists r, Inverse m = Ok r)].
Proof.
move=> Hm; split.
- by move/eqP => H; rewrite /Inverse H.
- move=> Hsq H0; rewrite /Inverse -Hsq eqxx /=.
  by rewrite Determinant_empty.
- move=> Hsq Hpos; case: (Determinant_ok Hm Hsq Hpos) => d Hd.
  exists d; split=> // Hz.
  by rewrite /Inverse -Hsq eqxx /= Hd bindE Hz.
- move=> Hsq Hpos; case: (Determinant_ok Hm Hsq Hpos) => d Hd.
  exists d; split=> // /negbTE Hz.
  rewrite /Inverse -Hsq eqxx /= Hd bindE Hz augment_ok // bindE.
  by eexists.
Qed.

End Totality.

(* ===================================================================== *)
(** * The properties of the specification *)
(* ===================================================================== *)

(** ** Concrete decomposition scenario *)

(** C2. [LU] on [[2,-1,-2],[-4,6,3],[-4,-2,8]] returns, with no error,
    exactly L = [[1,0,0],[-2,1,0],[-2,-1,1]] and
    U = [[2,-1,-2],[0,4,-1],[0,0,3]]. *)
Theorem LU_concrete_scenario : LU A_lu = Ok (L_lu, U_lu).
Proof. by vm_compute. Qed.

(** The remaining assertions of [Test_LU]. *)
Example LU_concrete_product :
  (let* B := Product L_lu U_lu in Equals A_lu B) = Ok true.
Proof. by vm_compute. Qed.

(** ** Error cases of [Inverse] *)

(** C3. On every matrix, [Inverse] fails with the not-square error exactly
    when [lines <> columns]; propagates the error of [Determinant] exactly
    when the matrix is square and empty; fails with the singular error
    exactly when the computed determinant compares equal to 0; and returns
    a matrix with no error in every other case. *)
Theorem Inverse_error_cases (S : scalar) (m : Matrix S) :
  wf m ->
  [\/ lines m <> columns m /\ Inverse m = Err ErrInvNotSquare,
      [/\ lines m = columns m, lines m = 0,
          Determinant m = Err ErrEmptyMatrix
        & Inverse m = Err ErrEmptyMatrix],
      lines m = columns m /\
        exists d, [/\ Determinant m = Ok d, feq d (fzero S)
                    & Inverse m = Err ErrDetZero]
    | lines m = columns m /\
        exists d, [/\ Determinant m = Ok d, ~~ feq d (fzero S)
                    & exists r, Inverse m = Ok r]].
Proof.
move=> Hm; case: (Inverse_cases Hm) => H1 H2 H3 H4.
case: (lines m =P columns m) => [Hsq|Hne]; last first.
  by constructor 1; split=> //; apply: H1.
case: (posnP (lines m)) => [H0|Hpos].
  by constructor 2; case: (H2 Hsq H0).
case: (H3 Hsq Hpos) => d [Hd Hz]; case: (H4 Hsq Hpos) => d' [Hd' Hnz].
move: Hd'; rewrite Hd => -[Hdd]; rewrite -Hdd in Hnz.
case Hf: (feq d (fzero S)).
  by constructor 3; split=> //; exists d; split=> //; apply: Hz.
by constructor 4; split=> //; exists d; split=> //;
   [rewrite Hf | apply: Hnz; rewrite Hf].
Qed.

Lemma Inverse_error_cases_witness :
  wf A_lu /\
  [\/ lines A_lu <> columns A_lu /\ Inverse A_lu = Err ErrInvNotSquare,
      [/\ lines A_lu = columns A_lu, lines A_lu = 0,
          Determinant A_lu = Err ErrEmptyMatrix
        & Inverse A_lu = Err ErrEmptyMatrix],
      lines A_lu = columns A_lu /\
        exists d, [/\ Determinant A_lu = Ok d, feq d (fzero float64)
                    & Inverse A_lu = Err ErrDetZero]
    | lines A_lu = columns A_lu /\
        exists d, [/\ Determinant A_lu = Ok d, ~~ feq d (fzero float64)
                    & exists r, Inverse A_lu = Ok r]].
Proof.
split; first by vm_compute.
by apply: (@Inverse_error_cases float64 A_lu); vm_compute.
Defined.

(** ** Positional access *)

(** C5. [Position] tests [row == 0] and returns the "invalid row" error,
    but has no test for a negative index: at [(-1, 1)] on [[7]] all four
    tests pass and [m.data[row-1]] panics, where the claim has an error
    returned for every index outside the matrix. *)
Theorem Position_negative_row :
  [/\ Position M7 0 1 = Err ErrInvalidRow,
      Position M7 (-1) 1 = Panic
    & ~ Position_claim M7 (-1) 1].
Proof.
split; [by vm_compute | by vm_compute |].
case=> _ H; have: Position M7 (-1) 1 = Ok (entry M7 (Z.to_nat (-1 - 1)) (Z.to_nat (1 - 1))).
  by apply: H; rewrite /Position_rejects /=; lia.
by vm_compute.
Qed.

(** For every well-formed matrix and every pair of non-negative integers
    [(row, col)], [Position] fails with an error if
    and only if [row] is 0, [col] is 0, [row] exceeds the number of rows or
    [col] exceeds the number of columns; in every other case it returns the
    stored value at the 1-based position [(row, col)]. *)
Theorem Position_spec (S : scalar) (m : Matrix S) (row col : Z) :
  wf m -> (0 <= row)%Z -> (0 <= col)%Z -> Position_claim m row col.
Proof.
move=> Hm Hr Hc; rewrite /Position_claim /Position_rejects /Position.
case: Z.ltb_spec => Hlr; first by split; [split; [right; right; left | eexists] | lia].
case: Z.ltb_spec => Hlc; first by split; [split; [right; right; right | eexists] | lia].
case: Z.eqb_spec => Hr0; first by split; [split; [left | eexists] | lia].
case: Z.eqb_spec => Hc0; first by split; [split; [right; left | eexists] | lia].
have Hi : Z.to_nat (row - 1) < lines m by apply/ltP; lia.
have Hj : Z.to_nat (col - 1) < columns m by apply/ltP; lia.
have Hrz : (row - 1 <? 0)%Z = false by apply/Z.ltb_ge; lia.
have Hcz : (col - 1 <? 0)%Z = false by apply/Z.ltb_ge; lia.
have -> : (let* r := zindex (data m) (row - 1) in zindex r (col - 1))
          = Ok (entry m (Z.to_nat (row - 1)) (Z.to_nat (col - 1))).
  by rewrite /zindex Hrz Hcz; apply: at2_ok.
split=> //; split; first by case.
by lia.
Qed.

Lemma Position_spec_witness :
  wf A_lu /\ (0 <= 2)%Z /\ (0 <= 3)%Z /\ Position_claim A_lu 2 3.
Proof.
split; first by vm_compute.
split; first by lia.
split; first by lia.
by apply: (@Position_spec float64 A_lu 2 3); [vm_compute | lia | lia].
Defined.

Example Position_value : Position A_lu 2 3 = Ok 3%float.
Proof. by vm_compute. Qed.

(** ** Sum followed by Sub *)

(** C6, as stated, fails under binary64 rounding:
    [(1 + 2^53) - 2^53] is [0], not [1]. *)
Lemma Sum_Sub_rounding :
  same_shape One Big /\
  (let* AB := Sum One Big in let* D := Sub AB Big in Equals D One) = Ok false /\
  ~ Sum_Sub_claim One Big.
Proof.
split; first by vm_compute.
split; first by vm_compute.
case=> AB [D [HS HD HE]].
have: (let* AB := Sum One Big in let* D := Sub AB Big in Equals D One) = Ok true.
  by rewrite HS bindE HD bindE.
by vm_compute.
Qed.

(** C6 (amended). For all matrices A and B of identical shape, [Sum] and
    the subsequent [Sub] of B both succeed, and the result [Equals] A if and
    only if [(a + b) - b == a] holds in the scalar arithmetic for every pair
    of corresponding entries. *)
Theorem Sum_Sub_Equals (S : scalar) (A B : Matrix S) :
  wf A -> wf B -> same_shape A B ->
  exists AB D,
    [/\ Sum A B = Ok AB, Sub AB B = Ok D
      & Equals D A = Ok (roundtrip_exact A B)].
Proof.
move=> HA HB Hsh; case/andP: (Hsh) => /eqP Hl /eqP Hc.
have Hd := wf_dims HA.
set AB := mkMatrix (lines A) (columns A)
            (tab (lines A) (columns A)
                 (fun i j => fadd (entry A i j) (entry B i j))).
have HAB : wf AB by apply: wf_tab.
have HshAB : same_shape AB B by [].
set D := mkMatrix (lines A) (columns A)
           (tab (lines A) (columns A)
                (fun i j => fsub (entry AB i j) (entry B i j))).
have HD : wf D by apply: wf_tab.
exists AB, D; split; first exact: Sum_ok.
  by rewrite (Sub_ok HAB HB HshAB).
have HshD : same_shape D A by rewrite /same_shape /= !eqxx.
rewrite Equals_ok //.
congr (Ok _); rewrite /roundtrip_exact /all2 /=.
apply: eq_in_all => i; rewrite mem_iota add0n /= => Hi.
apply: eq_in_all => j; rewrite mem_iota add0n /= => Hj.
by rewrite {1}/entry /D /= get2_tab // {1}/entry /AB /= get2_tab.
Qed.

Lemma Sum_Sub_Equals_witness :
  [/\ wf A_lu, wf U_lu, same_shape A_lu U_lu
    & exists AB D,
        [/\ Sum A_lu U_lu = Ok AB, Sub AB U_lu = Ok D
          & Equals D A_lu = Ok (roundtrip_exact A_lu U_lu)]].
Proof.
split; [by vm_compute | by vm_compute | by vm_compute |].
by apply: (@Sum_Sub_Equals float64 A_lu U_lu); vm_compute.
Defined.

(** ** Equals as a relation *)

(** C7, as stated, fails on a matrix that holds a NaN: [nan != nan]. *)
Lemma Equals_nan_irreflexive : wf NaN1 /\ Equals NaN1 NaN1 = Ok false.
Proof. by split; vm_compute. Qed.

(** C7 (amended). [Equals] is symmetric: for all matrices A and B,
    [A.Equals(B)] equals [B.Equals(A)]; and it is reflexive on every matrix
    none of whose entries is a NaN. *)
Theorem Equals_symmetric_reflexive (A B : Matrix float64) :
  Equals A B = Equals B A /\
  (wf A -> nan_free A -> Equals A A = Ok true).
Proof.
split; first exact: (@Equals_sym float64 float_eqb_sym).
move=> HA Hn; apply: Equals_refl => //.
apply/allP => i; rewrite mem_iota add0n /= => Hi.
apply/allP => j; rewrite mem_iota add0n /= => Hj.
exact: nan_free_entry.
Qed.

Lemma Equals_symmetric_reflexive_witness :
  [/\ wf A_lu, nan_free A_lu, Equals A_lu U_lu = Equals U_lu A_lu
    & Equals A_lu A_lu = Ok true].
Proof.
have [Hs Hr] := Equals_symmetric_reflexive A_lu U_lu.
split; [by vm_compute | by vm_compute | exact: Hs |].
by apply: Hr; vm_compute.
Defined.

(** ** Identity matrices of order 0 *)

(** C4, as stated for every n >= 0, fails at n = 0: the identity of order 0
    is the empty matrix, on which [Determinant] returns its empty-matrix
    error. *)
Lemma Determinant_identity_0 :
  Determinant (NewIdentityMatrix float64 0) = Err ErrEmptyMatrix.
Proof. by vm_compute. Qed.

(** C8, as stated for every n >= 0, fails at n = 0: [Inverse] propagates
    the empty-matrix error of [Determinant]. *)
Lemma Inverse_identity_0 :
  Inverse (NewIdentityMatrix float64 0) = Err ErrEmptyMatrix.
Proof. by vm_compute. Qed.

(** ** A zero pivot outside the reach of the row interchange *)

(** C10. [Inverse] does not test the pivot [augmented[i][i]]: on
    [[0,1],[-1,0]] the determinant is 1, the interchange pass leaves the
    rows in place, the first elimination step divides [-1] by the pivot
    [0], and the call returns, with no error, a matrix of NaN entries. *)
Theorem Inverse_zero_pivot :
  [/\ wf Rot, Determinant Rot = Ok 1%float,
      exists aug,
        [/\ augment Rot = Ok aug,
            interchange 2 aug = aug,
            get2 (interchange 2 aug) 0 0 = 0%float
          & fdiv (get2 (interchange 2 aug) 1 0) (get2 (interchange 2 aug) 0 0)
            = neg_infinity]
    & Inverse Rot = Ok (mkMatrix 2 2 [:: [:: nan; nan]; [:: nan; nan]])].
Proof.
split; [by vm_compute | by vm_compute | | by vm_compute].
by exists [:: [:: 0; 1; 1; 0]; [:: -1; 0; 0; 1]]%float; split; vm_compute.
Qed.

(* ===================================================================== *)
(** * Identity matrices *)
(* ===================================================================== *)

Lemma float64_unit_laws : unit_laws float64.
Proof. by split; vm_compute. Qed.

Section GridFill.

Variable S : scalar.
Local Abbreviation T := (carrier S).
Local Abbreviation grid := (seq (seq T)).

Implicit Types g : grid.

Lemma foldl_id (St : Type) (f : St -> nat -> St) (s : St) (xs : seq nat) :
  (forall x, x \in xs -> f s x = s) -> foldl f s xs = s.
Proof.
elim: xs => [|x xs IH] //= H; rewrite H ?mem_head //.
by apply: IH => y Hy; apply: H; rewrite in_cons Hy orbT.
Qed.

Lemma grid_ext r c g g' :
  shape r c g -> shape r c g' ->
  (forall i j, i < r -> j < c -> get2 g i j = get2 g' i j) -> g = g'.
Proof.
move=> Hg Hg' H; rewrite (shape_ext Hg) (shape_ext Hg') /tab /mkseq.
apply/eq_in_map => i; rewrite mem_iota add0n /= => Hi.
by apply/eq_in_map => j; rewrite mem_iota add0n /= => Hj; apply: H.
Qed.

Lemma set2_same r c g (i j : nat) :
  shape r c g -> i < r -> j < c -> set2 g i j (get2 g i j) = g.
Proof.
move=> Hg Hi Hj; apply: (grid_ext (shape_set2 _ Hg Hi Hj) Hg) => i' j' _ _.
by rewrite get2_set2; case: andP => // -[/eqP -> /eqP ->].
Qed.

Lemma get2_fill p f rows cols g (r c : nat) :
  get2 (fill p f rows cols g) r c =
    if [&& r \in rows, c \in cols & p r c] then f r c else get2 g r c.
Proof.
have Hin i cs g0 :
    get2 (foldl (fun g j => if p i j then set2 g i j (f i j) else g) g0 cs) r c
    = if [&& r == i, c \in cs & p r c] then f r c else get2 g0 r c.
  elim: cs g0 => [|j cs IH] g0 /=; first by rewrite andbF.
  rewrite IH in_cons; case: (r =P i) => [->|/eqP/negbTE Hri] /=; last first.
    by case: (p i j) => //; rewrite get2_set2 Hri.
  have -> : get2 (if p i j then set2 g0 i j (f i j) else g0) i c
            = if (c == j) && p i j then f i j else get2 g0 i c.
    by case: (p i j); rewrite ?andbF // get2_set2 eqxx andbT.
  case: (c =P j) => [->|_] /=; last by [].
  by case: (p i j); case: (j \in cs).
rewrite /fill; elim: rows g => [|k ks IH] g0 //=.
rewrite IH Hin in_cons; case: (r =P k) => [->|] //=.
by case: (k \in ks) => //=; case: (_ && _).
Qed.

Lemma shape_fill r c p f rows cols g :
  shape r c g -> all (fun i => i < r) rows -> all (fun j => j < c) cols ->
  shape r c (fill p f rows cols g).
Proof.
move=> Hg /allP Hr /allP Hc; rewrite /fill.
elim: rows g Hg Hr => [|i rows IH] g Hg Hr //=.
apply: IH; last by move=> k Hk; apply: Hr; rewrite in_cons Hk orbT.
have Hi : i < r by apply: Hr; rewrite mem_head.
elim: cols g Hg Hc => [|j cols IHc] g' Hg' Hc //=.
apply: IHc; last by move=> k Hk; apply: Hc; rewrite in_cons Hk orbT.
case: (p i j) => //; apply: shape_set2 => //.
by apply: Hc; rewrite mem_head.
Qed.

End GridFill.

Section Identity.

Variable S : scalar.
Hypothesis HU : unit_laws S.
Local Abbreviation T := (carrier S).
Local Abbreviation grid := (seq (seq T)).
Local Abbreviation delta := (delta S).

Lemma identity_tab (n : nat) :
  NewIdentityMatrix S n = mkMatrix n n (tab n n delta).
Proof.
rewrite /NewIdentityMatrix /tab /mkseq; congr mkMatrix.
apply/eq_in_map => i; rewrite mem_iota add0n /= => Hi.
apply: (@eq_from_nth _ (fzero S)).
  by rewrite size_set_nth size_nseq size_map size_iota; apply/maxn_idPr.
move=> j; rewrite size_set_nth size_nseq (maxn_idPr Hi) => Hj.
rewrite nth_set_nth /= (nth_map 0) ?size_iota // nth_iota // add0n /delta.
by rewrite nth_nseq Hj eq_sym.
Qed.

Lemma wf_identity (n : nat) : wf (NewIdentityMatrix S n).
Proof. by rewrite identity_tab; apply: wf_tab. Qed.

Lemma entry_identity (n i j : nat) :
  i < n -> j < n -> entry (NewIdentityMatrix S n) i j = delta i j.
Proof. by move=> Hi Hj; rewrite identity_tab /entry /= get2_tab. Qed.

Lemma sum_zero (f : nat -> T) (xs : seq nat) :
  (forall j, j \in xs -> f j = fzero S) ->
  foldl (fun s j => fadd s (f j)) (fzero S) xs = fzero S.
Proof. by move=> H; apply: foldl_id => j /H ->; apply: add_00. Qed.

Lemma mul_0_delta (i j : nat) : fmul (fzero S) (delta i j) = fzero S.
Proof. by rewrite /delta; case: (i == j); [apply: mul_01 | apply: mul_00]. Qed.

Lemma mul_delta_0 (i j : nat) : fmul (delta i j) (fzero S) = fzero S.
Proof. by rewrite /delta; case: (i == j); [apply: mul_10 | apply: mul_00]. Qed.

Lemma sub_delta_0 (i j : nat) : fsub (delta i j) (fzero S) = delta i j.
Proof. by rewrite /delta; case: (i == j); [apply: sub_10 | apply: sub_00]. Qed.

Lemma div_delta_1 (i j : nat) : fdiv (delta i j) (fone S) = delta i j.
Proof. by rewrite /delta; case: (i == j); [apply: div_11 | apply: div_01]. Qed.

Lemma eq_delta (i j : nat) : feq (delta i j) (delta i j).
Proof. by rewrite /delta; case: (i == j); [apply: eq_11 | apply: eq_00]. Qed.

(** The recurrences have a single solution on an identity matrix: the
    identity itself, for both factors. *)
Lemma doolittle_identity (n : nat) (l u : grid) (i : nat) :
  i <= n ->
  doolittle (NewIdentityMatrix S n) l u i ->
  (forall r c, r < i -> c < n -> get2 u r c = delta r c) /\
  (forall r c, c < i -> r < n -> get2 l r c = delta r c).
Proof.
elim: i => [|i IH] Hi [HU' HL']; first by split.
have [] := IH (ltnW Hi).
  split=> r c Hr Hc.
    by apply: HU' => //; apply: ltnW.
  by apply: HL' => //; apply: ltnW.
move=> Qu Ql.
have Hrow c : c < n -> get2 u i c = delta i c.
  move=> Hc; rewrite HU' // /u_val /lu_sum sum_zero.
    move=> j; rewrite mem_iota add0n /= => Hj.
    rewrite Ql // ?Qu // /delta (gtn_eqF Hj).
    exact: mul_0_delta.
  by rewrite entry_identity // sub_delta_0.
split=> r c; rewrite ltnS leq_eqVlt => /orP [/eqP -> | Hlt] Hb;
  [exact: Hrow | exact: Qu | | exact: Ql].
rewrite HL' // /l_val Hrow // {1 2}/delta eqxx (eq_10 HU).
case: (i =P r) => [->|/eqP Hir]; first by rewrite /delta eqxx.
rewrite /lu_sum sum_zero.
  move=> j; rewrite mem_iota add0n /= => Hj.
  rewrite Ql // Qu // {2}/delta (ltn_eqF Hj).
  exact: mul_delta_0.
rewrite entry_identity // sub_delta_0 div_delta_1.
by rewrite /delta eq_sym.
Qed.

Lemma LU_identity (n : nat) :
  LU (NewIdentityMatrix S n)
    = Ok (NewIdentityMatrix S n, NewIdentityMatrix S n).
Proof.
have [l [u [HLU Hl Hu Hd]]] := LU_spec (wf_identity n) (erefl n).
have [Qu Ql] := doolittle_identity (leqnn n) Hd.
rewrite HLU identity_tab /=.
have -> : l = tab n n delta.
  by apply: (grid_ext Hl (shape_tab _ _ _)) => i j Hi Hj; rewrite get2_tab ?Ql.
have -> : u = tab n n delta.
  by apply: (grid_ext Hu (shape_tab _ _ _)) => i j Hi Hj; rewrite get2_tab ?Qu.
by [].
Qed.

Lemma Determinant_identity (n : nat) :
  0 < n -> Determinant (NewIdentityMatrix S n) = Ok (fone S).
Proof.
move=> Hn; case: (ltnP 2 n) => Hn2.
  have HLU := LU_identity n; rewrite {2 3}identity_tab in HLU.
  rewrite (@Determinant_big _ (NewIdentityMatrix S n) _ _ Hn2 (erefl _) HLU
             (shape_tab _ _ _)) /=.
  congr (Ok _); apply: foldl_id => i; rewrite mem_iota add0n /= => Hi.
  by rewrite get2_tab // /delta eqxx (mul_11 HU).
case: n Hn Hn2 => [|[|[|n]]] // _ _.
by rewrite /Determinant /= (mul_11 HU) (mul_00 HU) (sub_10 HU).
Qed.

End Identity.

Section IdentityInverse.

Variable S : scalar.
Hypothesis HU : unit_laws S.
Local Abbreviation T := (carrier S).
Local Abbreviation grid := (seq (seq T)).
Local Abbreviation aug_id := (aug_id S).

Lemma get2_aug_id (n r c : nat) :
  r < n -> c < n * 2 ->
  get2 (aug_id n) r c
    = if (c == r) || (c == r + n) then fone S else fzero S.
Proof. by move=> Hr Hc; rewrite /aug_id get2_tab. Qed.

Lemma shape_aug_id (n : nat) : shape n (n * 2) (aug_id n).
Proof. exact: shape_tab. Qed.

Lemma augment_pure_fill (m : Matrix T) :
  augment_pure m =
    fill (fun i j => j == i + lines m) (fun _ _ => fone S)
         (iota 0 (lines m)) (iota 0 (lines m * 2))
         (fill (fun _ _ => true) (entry m)
               (iota 0 (lines m)) (iota 0 (lines m))
               (make_grid S (lines m) (lines m * 2))).
Proof. by []. Qed.

Lemma all_iota_lt (n k : nat) : n <= k -> all (fun i => i < k) (iota 0 n).
Proof.
move=> Hnk; apply/allP => i; rewrite mem_iota add0n /= => Hi.
exact: leq_trans Hi Hnk.
Qed.

Lemma augment_identity (n : nat) :
  augment_pure (NewIdentityMatrix S n) = aug_id n.
Proof.
rewrite augment_pure_fill /=.
have Hn2 : n <= n * 2 by rewrite muln2 -addnn leq_addr.
apply: (@grid_ext _ n (n * 2)).
- apply: shape_fill; rewrite ?all_iota_lt //.
  by apply: shape_fill; rewrite ?all_iota_lt // shape_make.
- exact: shape_aug_id.
move=> i j Hi Hj; rewrite !get2_fill !mem_iota !add0n /= Hi Hj /=.
rewrite get2_aug_id // get2_make andbT.
case: (j =P i + n) => [->|_]; first by rewrite orbT.
rewrite orbF; case: (ltnP j n) => Hjn.
  by rewrite entry_identity // /delta eq_sym.
by rewrite (gtn_eqF (leq_trans Hi Hjn)).
Qed.

Lemma interchange_identity (n : nat) : interchange n (aug_id n) = aug_id n.
Proof.
apply: foldl_id => i; rewrite mem_rev mem_iota => /andP [Hi1 Hi2].
have Hn : 0 < n by case: n Hi2 => //; rewrite addn0 ltnNge Hi1.
have Hin : i < n by move: Hi2; rewrite add1n prednK.
have H0 : 0 < n * 2 by rewrite muln_gt0 Hn.
have Hp : i.-1 < n by apply: leq_ltn_trans (leq_pred i) Hin.
rewrite !get2_aug_id // [0 == i]eq_sym (gtn_eqF Hi1) /=.
rewrite [0 == i + n]eq_sym addn_eq0 (gtn_eqF Hi1) /=.
by case: (_ || _); rewrite ?(lt_10 HU) ?(lt_00 HU).
Qed.

Lemma eliminate_identity (n : nat) : eliminate n (aug_id n) = aug_id n.
Proof.
apply: foldl_id => i; rewrite mem_iota add0n /= => Hi.
apply: foldl_id => j; rewrite mem_iota add0n /= => Hj.
case: (j =P i) => [//|/eqP Hji] /=.
have Hi2 : i < n * 2 by rewrite muln2 -addnn (ltn_addr _ Hi).
have -> : fdiv (get2 (aug_id n) j i) (get2 (aug_id n) i i) = fzero S.
  rewrite !get2_aug_id // eqxx /= eq_sym (negbTE Hji) /=.
  by rewrite (ltn_eqF (ltn_addl j Hi)) (div_01 HU).
apply: foldl_id => k; rewrite mem_iota add0n /= => Hk.
rewrite -[RHS](set2_same (shape_aug_id n) Hj Hk); congr set2.
rewrite (get2_aug_id Hi Hk) (get2_aug_id Hj Hk).
have -> : fmul (if (k == i) || (k == i + n) then fone S else fzero S)
               (fzero S) = fzero S.
  by case: (_ || _); [apply: mul_10 | apply: mul_00].
by case: (_ || _); [apply: sub_10 | apply: sub_00].
Qed.

Lemma normalize_identity (n : nat) : normalize n (aug_id n) = aug_id n.
Proof.
apply: foldl_id => i; rewrite mem_iota add0n /= => Hi.
have Hi2 : i < n * 2 by rewrite muln2 -addnn (ltn_addr _ Hi).
apply: foldl_id => j; rewrite mem_iota add0n /= => Hj.
rewrite -[RHS](set2_same (shape_aug_id n) Hi Hj); congr set2.
rewrite (get2_aug_id Hi Hi2) eqxx /= (get2_aug_id Hi Hj).
by case: (_ || _); [apply: div_11 | apply: div_01].
Qed.

Lemma extract_identity (n : nat) : extract n (aug_id n) = tab n n (delta S).
Proof.
rewrite /extract /tab /mkseq.
apply/eq_in_map => i; rewrite mem_iota add0n /= => Hi.
apply/eq_in_map => j; rewrite mem_iota add0n /= => Hj.
rewrite get2_aug_id //; first by rewrite muln2 -addnn ltn_add2l.
rewrite (gtn_eqF (ltn_addr j Hi)) /= [i + n]addnC eqn_add2l /delta.
by rewrite eq_sym.
Qed.

Lemma Inverse_identity (n : nat) :
  0 < n -> Inverse (NewIdentityMatrix S n) = Ok (NewIdentityMatrix S n).
Proof.
move=> Hn; rewrite /Inverse /= eqxx /= Determinant_identity // bindE.
rewrite (eq_10 HU) augment_ok ?wf_identity // bindE augment_identity /=.
rewrite interchange_identity eliminate_identity normalize_identity.
by rewrite extract_identity NewMatrix_tab // -identity_tab.
Qed.

Lemma Equals_identity (n : nat) :
  Equals (NewIdentityMatrix S n) (NewIdentityMatrix S n) = Ok true.
Proof.
apply: Equals_refl; first exact: wf_identity.
apply/allP => i; rewrite mem_iota add0n /= => Hi.
apply/allP => j; rewrite mem_iota add0n /= => Hj.
by rewrite entry_identity // eq_delta.
Qed.

End IdentityInverse.

(** C4 (amended). For every n >= 1, [Determinant] of the identity matrix of
    order n succeeds and returns exactly 1. *)
Theorem Determinant_identity_one (n : nat) :
  0 < n -> Determinant (NewIdentityMatrix float64 n) = Ok 1%float.
Proof. exact: (Determinant_identity float64_unit_laws). Qed.

Lemma Determinant_identity_one_witness :
  0 < 5 /\ Determinant (NewIdentityMatrix float64 5) = Ok 1%float.
Proof. by split; [| apply: (Determinant_identity_one (n := 5))]. Defined.

(** C8 (amended). For every n >= 1, [Inverse] of the identity matrix of
    order n succeeds and its result [Equals] that identity matrix. *)
Theorem Inverse_identity_equals (n : nat) :
  0 < n ->
  exists r, Inverse (NewIdentityMatrix float64 n) = Ok r /\
            Equals r (NewIdentityMatrix float64 n) = Ok true.
Proof.
move=> Hn; exists (NewIdentityMatrix float64 n); split.
  exact: (Inverse_identity float64_unit_laws).
exact: (Equals_identity float64_unit_laws).
Qed.

Lemma Inverse_identity_equals_witness :
  0 < 2 /\
  exists r, Inverse (NewIdentityMatrix float64 2) = Ok r /\
            Equals r (NewIdentityMatrix float64 2) = Ok true.
Proof. by split; [| apply: (Inverse_identity_equals (n := 2))]. Defined.

(* ===================================================================== *)
(** * The Doolittle recurrences over a field *)
(* ===================================================================== *)

Section Doolittle.

Import GRing.Theory.

Variable F : fieldType.
Variable n : nat.
Variables a L U : nat -> nat -> F.

Hypothesis HUrec : forall r c, r < n -> c < n ->
  U r c = (a r c - \sum_(0 <= j < r) L r j * U j c)%R.

Hypothesis HLrec : forall r c, r < n -> c < n ->
  L r c = if c == r then 1%R
          else if U c c == 0%R then 0%R
          else ((a r c - \sum_(0 <= j < c) L r j * U j c) / U c c)%R.

(** The leading principal minors of [a] are non-zero. *)
Hypothesis Hminors : forall k, 0 < k <= n ->
  (\det (\matrix_(i < k, j < k) a i j) != 0)%R.

Local Abbreviation Lzero := (Lzero L).
Local Abbreviation Uzero := (Uzero U).

Lemma diagL (r : nat) : r < n -> L r r = 1%R.
Proof. by move=> Hr; rewrite HLrec // eqxx. Qed.

Lemma sumU (r c : nat) :
  r < n -> c < n -> (\sum_(0 <= j < r.+1) L r j * U j c)%R = a r c.
Proof.
move=> Hr Hc; rewrite big_nat_recr //= diagL // mul1r HUrec //.
by rewrite addrC subrK.
Qed.

Lemma sumL (r c : nat) :
  r < n -> c < n -> r != c -> U c c != 0%R ->
  (\sum_(0 <= j < c.+1) L r j * U j c)%R = a r c.
Proof.
move=> Hr Hc Hrc Hp; rewrite big_nat_recr //= [L r c]HLrec //.
by rewrite eq_sym (negbTE Hrc) (negbTE Hp) divfK // addrC subrK.
Qed.

Lemma block_product (k : nat) :
  k <= n -> Lzero k -> Uzero k ->
  (forall i, i.+1 < k -> U i i != 0%R) ->
  forall r c, r < k -> c < k ->
    (\sum_(0 <= j < k) L r j * U j c)%R = a r c.
Proof.
move=> Hk HLz HUz Hp r c Hr Hc.
have Hrn := leq_trans Hr Hk; have Hcn := leq_trans Hc Hk.
case: (leqP r c) => Hrc.
  rewrite (@big_cat_nat _ _ _ r.+1) // sumU //.
  rewrite big_nat big1 => [j /andP [Hj1 Hj2]|]; last by rewrite /= addr0.
  by rewrite HLz // mul0r.
rewrite (@big_cat_nat _ _ _ c.+1) // sumL //.
- by rewrite gtn_eqF.
- by apply: Hp; apply: leq_trans Hr.
rewrite big_nat big1 => [j /andP [Hj1 Hj2]|]; last by rewrite /= addr0.
by rewrite HUz // mulr0.
Qed.

Lemma Uzero_step (k : nat) :
  k < n -> Uzero k -> (forall i, i < k -> U i i != 0%R) -> Uzero k.+1.
Proof.
move=> Hk HUz Hp r c; rewrite ltnS leq_eqVlt => /orP [/eqP -> | Hr] Hc;
  last exact: HUz.
have Hcn : c < n := ltn_trans Hc Hk.
rewrite HUrec // (@big_cat_nat _ _ _ c.+1) // sumL ?Hp // ?gtn_eqF //.
rewrite big_nat big1 => [j /andP [Hj1 Hj2]|]; last by rewrite /= addr0 subrr.
by rewrite HUz // mulr0.
Qed.

Lemma Lzero_step (k : nat) : k < n -> Lzero k -> Lzero k.+1.
Proof.
move=> Hk HLz r c; rewrite ltnS leq_eqVlt => /orP [/eqP -> | Hc] Hr;
  last exact: HLz.
have Hrn : r < n := ltn_trans Hr Hk.
rewrite HLrec // (gtn_eqF Hr); case: ifP => // _.
rewrite (@big_cat_nat _ _ _ r.+1) // sumU //.
rewrite big_nat big1 => [j /andP [Hj1 Hj2]|];
  last by rewrite /= addr0 subrr mul0r.
by rewrite HLz // mul0r.
Qed.

(** The leading block of order [k] of [a] factors through those of [L]
    and [U], so its determinant is the product of the first [k] pivots. *)
Lemma leading_minor_pivots (k : nat) :
  k <= n -> Lzero k -> Uzero k ->
  (forall i, i.+1 < k -> U i i != 0%R) ->
  (\det (\matrix_(i < k, j < k) a i j) = \prod_(i < k) U i i)%R.
Proof.
move=> Hk HLz HUz Hp.
set Lk : 'M[F]_k := (\matrix_(i < k, j < k) L i j)%R.
set Uk : 'M[F]_k := (\matrix_(i < k, j < k) U i j)%R.
have -> : (\matrix_(i < k, j < k) a i j = Lk *m Uk)%R.
  apply/matrixP => i j; rewrite !mxE.
  rewrite (eq_bigr (fun t : 'I_k => L i t * U t j)%R).
    by move=> t _; rewrite !mxE.
  rewrite -(big_mkord xpredT (fun t => L i t * U t j)%R).
  by rewrite block_product.
have HLt : is_trig_mx Lk.
  by apply/is_trig_mxP => i j Hij; rewrite mxE HLz.
have HUt : is_trig_mx Uk^T.
  by apply/is_trig_mxP => i j Hij; rewrite !mxE HUz.
rewrite det_mulmx (det_trig HLt) -(det_tr Uk) (det_trig HUt).
rewrite big1 ?mul1r.
  by move=> i _; rewrite mxE diagL // (leq_trans (ltn_ord i)).
by apply: eq_bigr => i _; rewrite !mxE.
Qed.

Lemma pivot_step (k : nat) :
  k < n -> Lzero k.+1 -> Uzero k.+1 ->
  (forall i, i < k -> U i i != 0%R) -> U k k != 0%R.
Proof.
move=> Hk HLz HUz Hp.
have := Hminors (k := k.+1); rewrite Hk /= => /(_ isT).
rewrite leading_minor_pivots // => /prodf_neq0 H.
exact: (H (@Ordinal k.+1 k (ltnSn k))).
Qed.

Lemma triangular_upto (k : nat) :
  k <= n -> [/\ Lzero k, Uzero k & forall i, i < k -> U i i != 0%R].
Proof.
elim: k => [|k IH] Hk; first by split.
have [HLz HUz Hp] := IH (ltnW Hk).
have HLz' := Lzero_step Hk HLz.
have HUz' := Uzero_step Hk HUz Hp.
split=> // i; rewrite ltnS leq_eqVlt => /orP [/eqP -> | Hi]; last exact: Hp.
exact: pivot_step.
Qed.

(** For matrices with non-zero leading principal minors the recurrences
    produce a unit lower-triangular [L] and an upper-triangular [U] whose
    product is [a]. *)
Lemma doolittle_correct :
  [/\ forall r, r < n -> L r r = 1%R,
      forall r c, c < n -> r < c -> L r c = 0%R,
      forall r c, r < n -> c < r -> U r c = 0%R
    & forall r c, r < n -> c < n ->
        (\sum_(0 <= j < n) L r j * U j c)%R = a r c].
Proof.
have [HLz HUz Hp] := triangular_upto (leqnn n).
split=> //; first exact: diagL.
by apply: block_product => // i Hi; apply: Hp; apply: ltnW.
Qed.

End Doolittle.

(* ===================================================================== *)
(** * LU in exact arithmetic *)
(* ===================================================================== *)

Section SmallDeterminants.

Import GRing.Theory.

Variable R : comNzRingType.
Variable f : nat -> nat -> R.

Lemma det2 :
  (\det (\matrix_(i < 2, j < 2) f i j) = f 0 0 * f 1 1 - f 0 1 * f 1 0)%R.
Proof.
rewrite (expand_det_row _ ord0) !big_ord_recl big_ord0 /cofactor.
rewrite !det_mx11 !mxE /= addr0 expr0 mul1r expr1 /bump /=.
by rewrite mulNr mul1r mulrN.
Qed.

Lemma det3 :
  (\det (\matrix_(i < 3, j < 3) f i j)
   = f 0 0 * (f 1 1 * f 2 2 - f 1 2 * f 2 1)
     - f 0 1 * (f 1 0 * f 2 2 - f 1 2 * f 2 0)
     + f 0 2 * (f 1 0 * f 2 1 - f 1 1 * f 2 0))%R.
Proof.
rewrite (expand_det_row _ ord0) !big_ord_recl big_ord0 /cofactor.
rewrite !(expand_det_row _ ord0) !big_ord_recl !big_ord0 /cofactor.
rewrite !det_mx11 !mxE /= /bump /= !addr0 !expr0 !mul1r ?addn0 ?add0n ?add1n.
rewrite !expr1 expr2 !mulN1r !mulrN opprK !mul1r.
by rewrite addrA.
Qed.

End SmallDeterminants.

Section LUExact.

Import GRing.Theory.

Variable F : numFieldType.

Lemma exact_sum (f : nat -> F) (k : nat) :
  foldl (fun s j => @fadd (exact F) s (f j)) (fzero (exact F)) (iota 0 k)
  = (\sum_(0 <= j < k) f j)%R.
Proof.
elim: k => [|k IH]; first by rewrite big_geq.
by rewrite -{1}(addn1 k) iotaD foldl_cat IH /= big_nat_recr.
Qed.

Variable m : Matrix (exact F).
Hypothesis Hwf : wf m.
Hypothesis Hsq : lines m = columns m.
Hypothesis Hminors : forall k, 0 < k <= lines m -> leading_minor m k != 0%R.

Lemma LU_exact_correct : LU_claim m.
Proof.
have [l [u [HLU Hl Hu [HUd HLd]]]] := LU_spec Hwf Hsq.
pose n := lines m.
have HUrec r c : r < n -> c < n ->
    get2 u r c
    = (entry m r c - \sum_(0 <= j < r) get2 l r j * get2 u j c)%R.
  by move=> Hr Hc; rewrite HUd // /u_val /lu_sum exact_sum.
have HLrec r c : r < n -> c < n ->
    get2 l r c
    = if c == r then 1%R
      else if get2 u c c == 0%R then 0%R
      else ((entry m r c - \sum_(0 <= j < c) get2 l r j * get2 u j c)
            / get2 u c c)%R.
  by move=> Hr Hc; rewrite HLd // /l_val /lu_sum exact_sum.
have [H1 H2 H3 H4] := doolittle_correct HUrec HLrec Hminors.
have HwL : wf (mkMatrix n n l) by apply: wf_shape.
have HwU : wf (mkMatrix n n u) by apply: wf_shape.
exists (mkMatrix n n l), (mkMatrix n n u); split=> //.
- move=> i j /= Hi Hj; split=> [<-|Hij].
    by rewrite /entry /= H1 //=.
  by rewrite /entry /= H2 //=.
- by move=> i j /= Hi Hj Hji; rewrite /entry /= H3 //=.
rewrite (Product_ok HwL HwU (erefl _)) /=; eexists; split; first by [].
rewrite Equals_ok //=.
- by apply: wf_tab.
- by rewrite /same_shape /= -Hsq !eqxx.
congr (Ok _); apply/allP => i; rewrite mem_iota add0n /= => Hi.
apply/allP => j; rewrite mem_iota add0n /= => Hj.
rewrite {1}/entry /= get2_tab // /dot exact_sum.
by rewrite [X in X == _]H4.
Qed.

End LUExact.

(** ** LU on matrices with non-zero leading principal minors *)

Lemma A49_minors (k : nat) :
  0 < k <= lines A49_exact -> leading_minor A49_exact k != 0%R.
Proof.
case: k => [|[|[|k]]] // _; rewrite /leading_minor.
  by rewrite det_mx11 mxE.
rewrite det_trig.
  apply/is_trig_mxP => i j; rewrite mxE.
  by case: i => [[|[|i]] Hi] //; case: j => [[|[|j]] Hj].
by rewrite !big_ord_recl big_ord0 !mxE.
Qed.

(** C1. On [[49,0],[1,1]], whose leading principal minors are 49 and 49,
    [LU] returns a U that is not upper-triangular. The loop headed
    "upper triangular" (line 226) runs [k] from 0 and not from [i], so it
    also assigns the entries below the diagonal: [U[1][0] = 1 - (1/49)*49],
    which binary64 rounds to [2^-53] instead of 0. L is unit
    lower-triangular there and [L.Product(U).Equals(A)] is true: the claim
    fails on the lower triangle of U alone. *)
Theorem LU_rounding :
  [/\ forall k, 0 < k <= lines A49_exact -> leading_minor A49_exact k != 0%R,
      LU A49 = Ok (mkMatrix 2 2 [:: [:: 1; 0]; [:: 1 / 49; 1]]%float,
                   mkMatrix 2 2 [:: [:: 49; 0]; [:: 0x1p-53; 1]]%float),
      (let* LU_ := LU A49 in
       let* P := Product LU_.1 LU_.2 in Equals P A49) = Ok true
    & ~ LU_claim A49].
Proof.
have HLU' : LU A49 = Ok
    (mkMatrix 2 2 [:: [:: 1; 0]; [:: 1 / 49; 1]]%float,
     mkMatrix 2 2 [:: [:: 49; 0]; [:: 0x1p-53; 1]]%float).
  by vm_compute.
split; [exact: A49_minors | exact: HLU' | by vm_compute |].
case=> L [U [HLU _ HU _]].
move: HLU; rewrite HLU' => -[_ HUeq].
by have := HU 1 0; rewrite -HUeq; vm_compute => /(_ isT isT isT).
Qed.

(** The rounding also reaches the product: on [[3,8,2],[2,9,7],[3,3,5]]
    both factors come out triangular, and entry (2,2) of their product is
    4.999999999999999. *)
Lemma A3_minor_values (F : numFieldType) :
  [/\ (3%:R != 0 :> F)%R,
      (3%:R * 9%:R - 8%:R * 2%:R != 0 :> F)%R
    & (3%:R * (9%:R * 5%:R - 7%:R * 3%:R)
       - 8%:R * (2%:R * 5%:R - 7%:R * 3%:R)
       + 2%:R * (2%:R * 3%:R - 9%:R * 3%:R) != 0 :> F)%R].
Proof.
split; rewrite !pmulrn.
- by rewrite intr_eq0.
- by rewrite -!intrM -!intrB intr_eq0.
- by rewrite -!intrM -!intrB -!intrM -!intrB -!intrD intr_eq0.
Qed.

Lemma A3_minors (k : nat) :
  0 < k <= lines A3_exact -> leading_minor A3_exact k != 0%R.
Proof.
have [H1 H2 H3] := A3_minor_values rat.
have -> : A3_exact = mkMatrix 3 3
    [:: [:: 3%:R; 8%:R; 2%:R]; [:: 2%:R; 9%:R; 7%:R]; [:: 3%:R; 3%:R; 5%:R]]%R.
  by [].
case: k => [|[|[|[|k]]]] Hk; rewrite /leading_minor.
- discriminate Hk.
- rewrite det_mx11 mxE; cbv [entry get2 data nth]; exact: H1.
- rewrite det2; cbv [entry get2 data nth]; exact: H2.
- rewrite det3; cbv [entry get2 data nth]; exact: H3.
- discriminate Hk.
Qed.

Example LU_product_rounding :
  (forall k, 0 < k <= lines A3_exact -> leading_minor A3_exact k != 0%R) /\
  (let* LU_ := LU A3 in
   let* P := Product LU_.1 LU_.2 in
   let* same := Equals P A3 in
   Ok (get2 (data LU_.1) 0 1, get2 (data LU_.2) 1 0, entry P 2 2, same))
  = Ok (0, 0, 0x1.3ffffffffffffp+2, false)%float.
Proof. by split; [exact: A3_minors | vm_compute]. Qed.

(** In exact arithmetic (the float64 operations replaced by those of an
    ordered field), for every square matrix A whose leading principal
    minors are all non-zero, [LU] succeeds and returns L and U such that L
    is unit lower-triangular, U is upper-triangular and
    [L.Product(U).Equals(A)] is true: without rounding, the entries the
    loops assign in the two zero triangles are exactly 0. *)
Theorem LU_exact (F : numFieldType) (m : Matrix (exact F)) :
  wf m -> lines m = columns m ->
  (forall k, 0 < k <= lines m -> leading_minor m k != 0%R) ->
  LU_claim m.
Proof.
move=> Hwf Hsq Hminors.
exact: (LU_exact_correct Hwf Hsq Hminors).
Qed.

Lemma LU_exact_witness :
  [/\ wf A49_exact, lines A49_exact = columns A49_exact,
      forall k, 0 < k <= lines A49_exact -> leading_minor A49_exact k != 0%R
    & LU_claim A49_exact].
Proof.
have Hwf : wf A49_exact by [].
have Hsq : lines A49_exact = columns A49_exact by [].
split=> //; first exact: A49_minors.
exact: (LU_exact Hwf Hsq A49_minors).
Defined.

(* ===================================================================== *)
(** * Frame: the operations write only to storage they allocate *)
(* ===================================================================== *)

Section Frame.

Variable S : scalar.
Local Abbreviation T := (carrier S).
Local Abbreviation heap := (Heap.heap S).

(** ** Sequences as stores *)

Lemma index_rcons (A : Type) (s : seq A) (x : A) (a : nat) :
  index (rcons s x) a =
    if a < size s then index s a else if a == size s then Ok x else Panic.
Proof.
by elim: s a => [|y s IH] [|a] //=.
Qed.

Lemma index_set_nth (A : Type) (x0 : A) (s : seq A) (a b : nat) (x : A) :
  a < size s ->
  index (set_nth x0 s a x) b = if b == a then Ok x else index s b.
Proof.
elim: s a b => [|y s IH] [|a] [|b] //=.
by rewrite ltnS eqSS; apply: IH.
Qed.

Lemma take_rcons_below (A : Type) (s : seq A) (x : A) (n : nat) :
  n <= size s -> take n (rcons s x) = take n s.
Proof.
rewrite -cats1 take_cat leq_eqVlt => /orP [/eqP -> | ->] //.
by rewrite ltnn subnn take0 cats0 take_size.
Qed.

Lemma take_set_nth_above (A : Type) (x0 : A) (s : seq A) (a n : nat) (x : A) :
  n <= a -> a < size s -> take n (set_nth x0 s a x) = take n s.
Proof.
elim: s a n => [|y s IH] [|a] [|n] //= Hna Ha.
by rewrite IH.
Qed.

Lemma index_mem (A : Type) (P : A -> bool) (s : seq A) (i : nat) (x : A) :
  index s i = Ok x -> all P s -> P x.
Proof.
elim: s i => [|y s IH] [|i] //=; first by case=> -> /andP [].
by move=> H /andP [_]; apply: IH H.
Qed.

Lemma all_set_nth (A : Type) (P : A -> bool) (x0 : A) (s : seq A) (i : nat)
      (x : A) :
  i < size s -> all P s -> P x -> all P (set_nth x0 s i x).
Proof.
elim: s i => [|y s IH] [|i] //= Hi /andP [Hy Hs] Hx.
  by rewrite Hx.
by rewrite Hy IH.
Qed.

Lemma inv_start (h : heap) : inv (size h) h.
Proof.
move=> a c Ha Hc; have := index_okP Hc.
by rewrite ltnNge Ha.
Qed.

(** ** Rules for the monad *)

Lemma safe_ret (n : nat) (A : Type) (a : A) (Q : A -> Prop) :
  Q a -> safe n (Heap.ret (S := S) a) Q.
Proof. by move=> HQ h Hn Hi; split=> //= b [<-]. Qed.

Lemma safe_raise (n : nat) (A : Type) (e : error) (Q : A -> Prop) :
  safe n (@Heap.raise S A e) Q.
Proof. by move=> h Hn Hi; split. Qed.

Lemma safe_panic (n : nat) (A : Type) (Q : A -> Prop) :
  safe n (@Heap.panic S A) Q.
Proof. by move=> h Hn Hi; split. Qed.

Lemma safe_lift (n : nat) (A : Type) (r : result A) (Q : A -> Prop) :
  (forall a, r = Ok a -> Q a) -> safe n (Heap.lift (S := S) r) Q.
Proof. by move=> HQ h Hn Hi; split. Qed.

Lemma safe_bind (n : nat) (A B : Type) (c : Heap.M S A) (k : A -> Heap.M S B)
      (Q : A -> Prop) (Q' : B -> Prop) :
  safe n c Q -> (forall a, Q a -> safe n (k a) Q') ->
  safe n (Heap.mbind c k) Q'.
Proof.
move=> Hc Hk h Hn Hi; rewrite /Heap.mbind.
case: (Hc h Hn Hi); case: (c h) => [[a|e|] h1] /= Ht Hs Hi1 HQ; try by split.
case: (Hk a (HQ a (erefl _)) h1 (leq_trans Hn Hs) Hi1) => Ht2 Hs2 Hi2 HQ2.
by split=> //; [rewrite Ht2 | apply: leq_trans Hs2].
Qed.

Lemma safe_weaken (n : nat) (A : Type) (c : Heap.M S A) (Q Q' : A -> Prop) :
  safe n c Q -> (forall a, Q a -> Q' a) -> safe n c Q'.
Proof.
move=> Hc HQ h Hn Hi; case: (Hc h Hn Hi) => Ht Hs Hi1 H.
by split=> // a /H /HQ.
Qed.

Lemma safe_alloc (n : nat) (c : Heap.cell S) :
  cell_ok n c -> safe n (Heap.alloc c) (fun a => n <= a).
Proof.
move=> Hc h Hn Hi; rewrite /Heap.alloc /=; split.
- exact: take_rcons_below.
- by rewrite size_rcons.
- move=> a c' Ha; rewrite index_rcons; case: ifP => _; first exact: Hi.
  by case: ifP => // _ [<-].
- by move=> a [<-].
Qed.

Lemma safe_load (n a : nat) :
  safe n (Heap.load (S := S) a) (fun c => n <= a -> cell_ok n c).
Proof.
move=> h Hn Hi; rewrite /Heap.load /=; split=> // c Hc Ha.
exact: (Hi a).
Qed.

Lemma safe_store (n a : nat) (c : Heap.cell S) :
  n <= a -> cell_ok n c -> safe n (Heap.store a c) (@top unit).
Proof.
move=> Ha Hc h Hn Hi; rewrite /Heap.store; case: ifP => Hlt /=; last by split.
split=> //.
- exact: take_set_nth_above.
- by rewrite size_set_nth; apply: leq_maxr.
- move=> b c' Hb; rewrite index_set_nth //; case: ifP => _; last exact: Hi.
  by case=> <-.
Qed.

Lemma safe_forM (n : nat) (xs : seq nat) (body : nat -> Heap.M S unit) :
  (forall x, safe n (body x) (@top unit)) ->
  safe n (Heap.forM xs body) (@top unit).
Proof.
move=> Hb; elim: xs => [|x xs IH] /=; first exact: safe_ret.
by apply: safe_bind (Hb x) _ => _ _.
Qed.

Lemma safe_foldM (n : nat) (St : Type) (xs : seq nat)
      (body : St -> nat -> Heap.M S St) (s : St) :
  (forall s x, safe n (body s x) (@top St)) ->
  safe n (Heap.foldM xs body s) (@top St).
Proof.
move=> Hb; elim: xs s => [|x xs IH] s /=; first exact: safe_ret.
by apply: safe_bind (Hb s x) _ => s' _.
Qed.

Lemma safe_firstM (n : nat) (B : Type) (xs : seq nat)
      (body : nat -> Heap.M S (option B)) :
  (forall x, safe n (body x) (@top (option B))) ->
  safe n (Heap.firstM xs body) (@top (option B)).
Proof.
move=> Hb; elim: xs => [|x xs IH] /=; first exact: safe_ret.
by apply: safe_bind (Hb x) _ => -[b|] _ //; apply: safe_ret.
Qed.

Lemma safe_drop_error (n : nat) (A : Type) (c : Heap.M S A) (Q : A -> Prop) :
  safe n c Q -> safe n (Heap.drop_error c) Q.
Proof.
move=> Hc h Hn Hi; rewrite /Heap.drop_error.
by case: (Hc h Hn Hi); case: (c h) => [[a|e|] h1] /= Ht Hs Hi1 HQ; split.
Qed.

End Frame.

Section FrameRules.

Variable S : scalar.
Variable n : nat.
Local Abbreviation T := (carrier S).

Lemma safe_seq_top (A B : Type) (c : Heap.M S A) (k : A -> Heap.M S B)
      (Q' : B -> Prop) :
  safe n c (@top A) -> (forall a, safe n (k a) Q') ->
  safe n (Heap.mbind c k) Q'.
Proof. by move=> Hc Hk; apply: safe_bind Hc _ => a _. Qed.

Lemma safe_seq_fresh (B : Type) (c : Heap.M S Heap.slice)
      (k : Heap.slice -> Heap.M S B) (Q' : B -> Prop) :
  safe n c (fresh n) -> (forall s, fresh n s -> safe n (k s) Q') ->
  safe n (Heap.mbind c k) Q'.
Proof. exact: safe_bind. Qed.

Lemma safe_ret_top (A : Type) (a : A) : safe n (Heap.ret (S := S) a) (@top A).
Proof. exact: safe_ret. Qed.

Lemma safe_load_row (s : Heap.slice) :
  safe n (Heap.load_row (S := S) s) (@top (seq T)).
Proof.
case: s => [a|] /=; last exact: safe_ret.
apply: safe_bind (safe_load a) _ => c _.
by case: c => *; [apply: safe_ret | apply: safe_panic | apply: safe_panic].
Qed.

Lemma safe_load_outer (s : Heap.slice) :
  safe n (Heap.load_outer (S := S) s)
       (fun rs => fresh n s -> all (fresh n) rs).
Proof.
case: s => [a|] /=; last exact: safe_ret.
apply: safe_bind (safe_load a) _ => c Hc.
by case: c Hc => *; [apply: safe_panic | apply: safe_ret | apply: safe_panic].
Qed.

Lemma safe_len_row (s : Heap.slice) :
  safe n (Heap.len_row (S := S) s) (@top nat).
Proof. by apply: safe_seq_top (safe_load_row s) _ => xs; apply: safe_ret. Qed.

Lemma safe_len_outer (s : Heap.slice) :
  safe n (Heap.len_outer (S := S) s) (@top nat).
Proof.
apply: safe_bind (safe_load_outer s) _ => rs _; exact: safe_ret.
Qed.

Lemma safe_row_get (s : Heap.slice) (j : nat) :
  safe n (Heap.row_get (S := S) s j) (@top T).
Proof. by apply: safe_seq_top (safe_load_row s) _ => xs; apply: safe_lift. Qed.

Lemma safe_outer_get (d : Heap.slice) (i : nat) :
  safe n (Heap.outer_get (S := S) d i) (fun r => fresh n d -> fresh n r).
Proof.
apply: safe_bind (safe_load_outer d) _ => rs Hrs.
by apply: safe_lift => r Hr /Hrs; apply: index_mem Hr.
Qed.

Lemma safe_outer_get_top (d : Heap.slice) (i : nat) :
  safe n (Heap.outer_get (S := S) d i) (@top Heap.slice).
Proof. by apply: safe_weaken (safe_outer_get d i) _. Qed.

Lemma safe_outer_get_fresh (d : Heap.slice) (i : nat) :
  fresh n d -> safe n (Heap.outer_get (S := S) d i) (fresh n).
Proof. by move=> Hd; apply: safe_weaken (safe_outer_get d i) _ => r; apply. Qed.

Lemma safe_get2 (d : Heap.slice) (i j : nat) :
  safe n (Heap.get2 (S := S) d i j) (@top T).
Proof.
apply: safe_seq_top (safe_outer_get_top d i) _ => r; exact: safe_row_get.
Qed.

Lemma safe_row_set (s : Heap.slice) (j : nat) (v : T) :
  fresh n s -> safe n (Heap.row_set s j v) (@top unit).
Proof.
move=> Hs; apply: safe_seq_top (safe_load_row s) _ => xs.
case: ifP => _; last exact: safe_panic.
by case: s Hs => [a|] Ha; [apply: safe_store | apply: safe_panic].
Qed.

Lemma safe_outer_set (d : Heap.slice) (i : nat) (r : Heap.slice) :
  fresh n d -> fresh n r -> safe n (Heap.outer_set (S := S) d i r) (@top unit).
Proof.
move=> Hd Hr; apply: safe_bind (safe_load_outer d) _ => rs /(_ Hd) Hrs.
case: ifP => Hi; last exact: safe_panic.
case: d Hd => [a|] Ha; last exact: safe_panic.
by apply: safe_store => //=; apply: all_set_nth.
Qed.

Lemma safe_set2 (d : Heap.slice) (i j : nat) (v : T) :
  fresh n d -> safe n (Heap.set2 d i j v) (@top unit).
Proof.
move=> Hd; apply: safe_seq_fresh (safe_outer_get_fresh i Hd) _ => r Hr.
exact: safe_row_set.
Qed.

Lemma safe_make_row (k : nat) : safe n (@Heap.make_row S k) (fresh n).
Proof.
have Hc : cell_ok n (Heap.CRow (nseq k (fzero S))) by [].
apply: safe_bind (safe_alloc Hc) _ => a Ha.
exact: safe_ret.
Qed.

Lemma safe_make_outer (k : nat) : safe n (@Heap.make_outer S k) (fresh n).
Proof.
have Hc : cell_ok n (@Heap.COuter S (nseq k None)).
  by rewrite /cell_ok all_nseq orbT.
apply: safe_bind (safe_alloc Hc) _ => a Ha.
exact: safe_ret.
Qed.

Lemma safe_load_struct (m : nat) :
  safe n (Heap.load_struct (S := S) m) (@top (nat * nat * Heap.slice)).
Proof.
apply: safe_bind (safe_load m) _ => c _.
by case: c => *; [apply: safe_panic | apply: safe_panic | apply: safe_ret].
Qed.

Lemma safe_lines (m : nat) : safe n (Heap.lines (S := S) m) (@top nat).
Proof. by apply: safe_seq_top (safe_load_struct m) _ => s; apply: safe_ret. Qed.

Lemma safe_columns (m : nat) : safe n (Heap.columns (S := S) m) (@top nat).
Proof. by apply: safe_seq_top (safe_load_struct m) _ => s; apply: safe_ret. Qed.

Lemma safe_data (m : nat) : safe n (Heap.data (S := S) m) (@top Heap.slice).
Proof. by apply: safe_seq_top (safe_load_struct m) _ => s; apply: safe_ret. Qed.

Lemma safe_set_lines (m v : nat) :
  n <= m -> safe n (Heap.set_lines (S := S) m v) (@top unit).
Proof.
move=> Hm; apply: safe_seq_top (safe_load_struct m) _ => s.
exact: safe_store.
Qed.

Lemma safe_set_columns (m v : nat) :
  n <= m -> safe n (Heap.set_columns (S := S) m v) (@top unit).
Proof.
move=> Hm; apply: safe_seq_top (safe_load_struct m) _ => s.
exact: safe_store.
Qed.

End FrameRules.

(** One step of a frame proof, chosen by the shape of the computation. *)
Ltac safe_leaf :=
  solve [ apply: safe_ret_top | apply: safe_raise | apply: safe_panic
        | apply: safe_lines | apply: safe_columns | apply: safe_data
        | apply: safe_get2 | apply: safe_len_row | apply: safe_len_outer
        | apply: safe_outer_get_top
        | apply: safe_set2; assumption
        | apply: safe_outer_set; assumption
        | apply: safe_set_lines; assumption
        | apply: safe_set_columns; assumption
        | assumption ].

Ltac safe_fresh_leaf :=
  solve [ apply: safe_make_row | apply: safe_make_outer
        | apply: safe_outer_get_fresh; assumption
        | assumption ].

Ltac safe_go :=
  lazymatch goal with
  | |- safe _ (Heap.mbind _ _) _ =>
      first [ apply: safe_seq_fresh; [ safe_fresh_leaf | move=> ? ?; safe_go ]
            | apply: safe_seq_top; [ safe_go | move=> ?; safe_go ] ]
  | |- safe _ (if _ then _ else _) _ => case: ifP => _; safe_go
  | |- safe _ (Heap.forM _ _) _ => apply: safe_forM => ?; safe_go
  | |- safe _ (Heap.foldM _ _ _) _ => apply: safe_foldM => ? ?; safe_go
  | |- safe _ (Heap.firstM _ _) _ => apply: safe_firstM => ?; safe_go
  | |- safe _ (Heap.drop_error _) _ => apply: safe_drop_error; safe_go
  | |- _ => try safe_leaf
  end.

Section FrameOperations.

Variable S : scalar.
Variable n : nat.
Variable e : nat.
Local Abbreviation T := (carrier S).

Lemma safe_NewMatrix (d : Heap.slice) :
  safe n (Heap.NewMatrix (S := S) e d) (@top nat).
Proof.
rewrite /Heap.NewMatrix.
have Hc : cell_ok n (@Heap.CStruct S 0 0 d) by [].
apply: safe_bind (safe_alloc Hc) _ => m Hm.
by safe_go.
Qed.

Lemma safe_fill_new (rows : nat) (cols : Heap.M S nat)
      (body : Heap.slice -> nat -> nat -> Heap.M S unit) :
  safe n cols (@top nat) ->
  (forall result i j, fresh n result -> safe n (body result i j) (@top unit)) ->
  safe n (Heap.fill_new rows cols body) (fresh n).
Proof.
move=> Hcols Hbody; rewrite /Heap.fill_new.
apply: safe_seq_fresh (safe_make_outer rows) _ => result Hres.
apply: safe_seq_top (safe_len_outer result) _ => k.
apply: safe_seq_top; last by move=> _; apply: safe_ret.
apply: safe_forM => i; safe_go.
exact: Hbody.
Qed.

Lemma safe_shape_differs (m B : nat) :
  safe n (Heap.shape_differs (S := S) m B) (@top bool).
Proof. by rewrite /Heap.shape_differs; safe_go. Qed.

Lemma safe_Sum (m B : nat) : safe n (Heap.Sum (S := S) e m B) (@top nat).
Proof.
rewrite /Heap.Sum.
apply: safe_seq_top (safe_shape_differs m B) _ => -[]; first exact: safe_raise.
apply: safe_seq_top (safe_lines m) _ => lm.
apply: safe_seq_fresh; last by move=> r _; apply: safe_NewMatrix.
by apply: safe_fill_new => [|result i j Hres]; safe_go.
Qed.

Lemma safe_Sub (m B : nat) : safe n (Heap.Sub (S := S) e m B) (@top nat).
Proof.
rewrite /Heap.Sub.
apply: safe_seq_top (safe_shape_differs m B) _ => -[]; first exact: safe_raise.
apply: safe_seq_top (safe_lines m) _ => lm.
apply: safe_seq_fresh; last by move=> r _; apply: safe_NewMatrix.
by apply: safe_fill_new => [|result i j Hres]; safe_go.
Qed.

Lemma safe_ScalarProduct (m : nat) (k : T) :
  safe n (Heap.ScalarProduct e m k) (@top nat).
Proof.
rewrite /Heap.ScalarProduct.
apply: safe_seq_top (safe_lines m) _ => lm.
apply: safe_seq_fresh; last by move=> r _; apply: safe_NewMatrix.
by apply: safe_fill_new => [|result i j Hres]; safe_go.
Qed.

Lemma safe_Transpose (m : nat) :
  safe n (Heap.Transpose (S := S) e m) (@top nat).
Proof.
rewrite /Heap.Transpose.
apply: safe_seq_top (safe_columns m) _ => cm.
apply: safe_seq_fresh; last by move=> r _; apply: safe_NewMatrix.
by apply: safe_fill_new => [|result i j Hres]; safe_go.
Qed.

Lemma safe_Product (m B : nat) :
  safe n (Heap.Product (S := S) e m B) (@top nat).
Proof.
rewrite /Heap.Product.
apply: safe_seq_top (safe_columns m) _ => cm.
apply: safe_seq_top (safe_lines B) _ => lB.
case: ifP => _; first exact: safe_raise.
apply: safe_seq_top (safe_lines m) _ => lm.
apply: safe_seq_fresh; last by move=> r _; apply: safe_NewMatrix.
by apply: safe_fill_new => [|result i j Hres]; safe_go.
Qed.

Lemma safe_lu_sum (l u : Heap.slice) (i r c : nat) :
  safe n (Heap.lu_sum (S := S) l u i r c) (@top T).
Proof. by rewrite /Heap.lu_sum; safe_go. Qed.

Lemma safe_LU (m : nat) : safe n (Heap.LU (S := S) e m) (@top (nat * nat)).
Proof.
have Hsum := safe_lu_sum.
have HNew := safe_NewMatrix.
by rewrite /Heap.LU; safe_go.
Qed.

Lemma safe_Determinant (m : nat) :
  safe n (Heap.Determinant (S := S) e m) (@top T).
Proof.
have HLU := safe_LU.
by rewrite /Heap.Determinant; safe_go.
Qed.

Lemma safe_Equals (m B : nat) :
  safe n (Heap.Equals (S := S) m B) (@top bool).
Proof.
have Hsh := safe_shape_differs.
by rewrite /Heap.Equals; safe_go.
Qed.

Lemma safe_Inverse (m : nat) :
  safe n (Heap.Inverse (S := S) e m) (@top nat).
Proof.
rewrite /Heap.Inverse.
apply: safe_seq_top (safe_lines m) _ => lm.
apply: safe_seq_top (safe_columns m) _ => cm.
case: ifP => _; first exact: safe_raise.
apply: safe_seq_top (safe_Determinant m) _ => det.
case: ifP => _; first exact: safe_raise.
apply: safe_seq_top (safe_lines m) _ => order.
apply: safe_seq_fresh (safe_make_outer order) _ => augmented Haug.
do 6![apply: safe_seq_top; [by safe_go | move=> ?]].
apply: safe_seq_fresh; last by move=> r _; apply: safe_NewMatrix.
by apply: safe_fill_new => [|result i j Hres]; safe_go.
Qed.

End FrameOperations.

(** ** No operation mutates its receiver or arguments *)

Lemma safe_unchanged (S : scalar) (A : Type) (c : Heap.M S A)
      (Q : A -> Prop) (h : Heap.heap S) :
  safe (size h) c Q -> Heap.unchanged h (c h).2.
Proof.
move=> Hc; case: (Hc h (leqnn _) (@inv_start S h)) => Ht _ _ _.
by rewrite /Heap.unchanged Ht take_size.
Qed.

(** C9. Whatever the store [h], the receiver [m], the argument [B] and the
    scalar [k], after each of Sum, Sub, ScalarProduct, Transpose, Product,
    LU, Determinant, Equals and Inverse every object that existed before
    the call (the structs, grids and rows of the receiver and of the
    arguments among them) holds what it held before: the operations, the
    elimination loops of LU and Inverse included, write only to arrays and
    structs they allocate themselves. *)
Theorem operations_do_not_mutate (S : scalar) (e : nat) (h : Heap.heap S)
        (m B : nat) (k : S) :
  [/\ Heap.unchanged h (Heap.Sum e m B h).2,
      Heap.unchanged h (Heap.Sub e m B h).2,
      Heap.unchanged h (Heap.ScalarProduct e m k h).2,
      Heap.unchanged h (Heap.Transpose e m h).2
    & Heap.unchanged h (Heap.Product e m B h).2] /\
  [/\ Heap.unchanged h (Heap.LU e m h).2,
      Heap.unchanged h (Heap.Determinant e m h).2,
      Heap.unchanged h (Heap.Equals m B h).2
    & Heap.unchanged h (Heap.Inverse e m h).2].
Proof.
split; split.
- exact: safe_unchanged (@safe_Sum S (size h) e m B).
- exact: safe_unchanged (@safe_Sub S (size h) e m B).
- exact: safe_unchanged (@safe_ScalarProduct S (size h) e m k).
- exact: safe_unchanged (@safe_Transpose S (size h) e m).
- exact: safe_unchanged (@safe_Product S (size h) e m B).
- exact: safe_unchanged (@safe_LU S (size h) e m).
- exact: safe_unchanged (@safe_Determinant S (size h) e m).
- exact: safe_unchanged (@safe_Equals S (size h) m B).
- exact: safe_unchanged (@safe_Inverse S (size h) e m).
Qed.

(** The store model computes what the value model computes: the scenario
    of [Test_LU] and the inverse of [Test_Inverse], built in the store,
    run there and read back. *)
Example Heap_LU_agrees :
  let: (r, h) :=
    Heap.mbind (Heap.literal (data A_lu)) (fun d =>
    Heap.mbind (Heap.NewMatrix 1 d) (fun m => Heap.LU 1 m))
      (Heap.init float64) in
  (let* LU_ := r in
   let* L := Heap.read h LU_.1 in
   let* U := Heap.read h LU_.2 in Ok (L, U)) = LU A_lu.
Proof. by vm_compute. Qed.

Example Heap_Inverse_agrees :
  let: (r, h) :=
    Heap.mbind (Heap.literal (data A_inv)) (fun d =>
    Heap.mbind (Heap.NewMatrix 1 d) (fun m => Heap.Inverse 1 m))
      (Heap.init float64) in
  (let* a := r in Heap.read h a) = Inverse A_inv.
Proof. by vm_compute. Qed.

Example Heap_Product_agrees :
  let: (r, h) :=
    Heap.mbind (Heap.literal (data L_lu)) (fun dl =>
    Heap.mbind (Heap.NewMatrix 1 dl) (fun L =>
    Heap.mbind (Heap.literal (data U_lu)) (fun du =>
    Heap.mbind (Heap.NewMatrix 1 du) (fun U => Heap.Product 1 L U))))
      (Heap.init float64) in
  (let* a := r in Heap.read h a) = Product L_lu U_lu.
Proof. by vm_compute. Qed.

(* ===================================================================== *)
(** * Further properties of the engine *)
(* ===================================================================== *)

Section MoreLaws.

Variable S : scalar.
Local Abbreviation T := (carrier S).
Local Abbreviation grid := (seq (seq T)).

Implicit Types m B : Matrix T.

Lemma tab_ext (r c : nat) (f g : nat -> nat -> T) :
  (forall i j, i < r -> j < c -> f i j = g i j) -> tab r c f = tab r c g.
Proof.
move=> H; rewrite /tab /mkseq.
apply/eq_in_map => i; rewrite mem_iota add0n /= => Hi.
by apply/eq_in_map => j; rewrite mem_iota add0n /= => Hj; apply: H.
Qed.

Lemma wf_eta m :
  wf m -> m = mkMatrix (lines m) (columns m)
                (tab (lines m) (columns m) (entry m)).
Proof.
move=> Hm; case: m Hm => l c d Hm /=; congr mkMatrix.
exact: (shape_ext (wf_is_shape Hm)).
Qed.

(** Transposing twice gives the matrix back, entry for entry. *)
Theorem Transpose_involutive m :
  wf m -> (let* t := Transpose m in Transpose t) = Ok m.
Proof.
move=> Hm; rewrite (Transpose_ok Hm) bindE.
set t := mkMatrix _ _ _.
have Ht : wf t by apply: wf_tab; rewrite (wf_dims Hm).
rewrite (Transpose_ok Ht) /= [in RHS](wf_eta Hm); congr (Ok (mkMatrix _ _ _)).
by apply: tab_ext => i j Hi Hj; rewrite /entry /= get2_tab.
Qed.

(** The transpose of a sum is the sum of the transposes. *)
Theorem Transpose_Sum m B :
  wf m -> wf B -> same_shape m B ->
  (let* s := Sum m B in Transpose s)
  = (let* tm := Transpose m in let* tB := Transpose B in Sum tm tB).
Proof.
move=> Hm HB Hsh; case/andP: (Hsh) => /eqP Hl /eqP Hc.
pose s := mkMatrix (lines m) (columns m)
            (tab (lines m) (columns m)
                 (fun i j => fadd (entry m i j) (entry B i j))).
pose tm := mkMatrix (columns m) (lines m)
             (tab (columns m) (lines m) (fun i j => entry m j i)).
pose tB := mkMatrix (columns B) (lines B)
             (tab (columns B) (lines B) (fun i j => entry B j i)).
have Hs : wf s by apply: wf_tab; rewrite (wf_dims Hm).
have Htm : wf tm by apply: wf_tab; rewrite (wf_dims Hm).
have HtB : wf tB by apply: wf_tab; rewrite (wf_dims HB).
have Hsh' : same_shape tm tB by rewrite /same_shape /= Hl Hc !eqxx.
have -> : Sum m B = Ok s by apply: Sum_ok.
have -> : Transpose m = Ok tm by apply: Transpose_ok.
have -> : Transpose B = Ok tB by apply: Transpose_ok.
rewrite !bindE (Transpose_ok Hs) (Sum_ok Htm HtB Hsh').
congr (Ok (mkMatrix _ _ _)); apply: tab_ext => i j Hi Hj.
by rewrite /entry /= !get2_tab // -?Hl -?Hc.
Qed.

End MoreLaws.

Section MoreTotality.

Variable S : scalar.
Local Abbreviation T := (carrier S).
Local Abbreviation grid := (seq (seq T)).

Implicit Types m B : Matrix T.

(** The constructors establish the invariant of the data model: the two
    square constructors always, [NewMatrix] on every rectangular grid
    (the empty grid and the grid of empty rows included, both of which
    become the 0 by 0 matrix). *)
Theorem constructors_establish_invariant (k : nat) (d : grid) :
  all (fun row => size row == size (head [::] d)) d ->
  [/\ wf (NewMatrix S d), wf (NullMatrix S k) & wf (NewIdentityMatrix S k)].
Proof.
move=> Hd; split; [exact: wf_NewMatrix | exact: wf_NullMatrix |].
exact: wf_identity.
Qed.

(** [Sum] rejects exactly the pairs of different shape; on well-formed
    matrices of one shape it returns a well-formed matrix of that shape
    holding the entrywise sums. *)
Theorem Sum_spec m B :
  wf m -> wf B ->
  if same_shape m B then
    exists r, [/\ Sum m B = Ok r, wf r, same_shape r m
                & forall i j, i < lines m -> j < columns m ->
                    entry r i j = fadd (entry m i j) (entry B i j)]
  else Sum m B = Err ErrSizeNotSame.
Proof.
move=> Hm HB; case Hsh: (same_shape m B); last first.
  by move/negbT: Hsh; rewrite /same_shape /Sum negb_and => ->.
eexists; split; first exact: Sum_ok.
- by apply: wf_tab; rewrite (wf_dims Hm).
- by rewrite /same_shape /= !eqxx.
- by move=> i j Hi Hj; rewrite /entry /= get2_tab.
Qed.

(** [Product] rejects exactly the pairs with [m.columns != B.lines]; on
    well-formed compatible matrices it returns a well-formed
    [m.lines] by [B.columns] matrix whose entries are the inner products
    accumulated from the left. *)
Theorem Product_spec m B :
  wf m -> wf B ->
  if columns m == lines B then
    exists r, [/\ Product m B = Ok r, wf r,
                  lines r = lines m /\ columns r = columns B
                & forall i j, i < lines m -> j < columns B ->
                    entry r i j
                    = dot (columns m) (entry m i) (fun k => entry B k j)]
  else Product m B = Err ErrProductShape.
Proof.
move=> Hm HB; case: (columns m =P lines B) => [Hc|/eqP Hc]; last first.
  by rewrite /Product /Lines Hc.
eexists; split; first exact: Product_ok.
- by apply: wf_tab; rewrite (wf_dims Hm) Hc (wf_dims HB).
- by [].
- by move=> i j Hi Hj; rewrite /entry /= get2_tab.
Qed.

End MoreTotality.

Section MoreLU.

Variable S : scalar.
Local Abbreviation T := (carrier S).
Local Abbreviation grid := (seq (seq T)).

Implicit Types m : Matrix T.

(** [LU] fails exactly on non-square matrices. On a well-formed square
    matrix it always returns two well-formed matrices of the same order,
    singular input included (the zero-pivot guard stores 0 and goes on),
    and the diagonal of L is exactly 1 in any arithmetic. *)
Theorem LU_spec_total m :
  wf m ->
  if lines m == columns m then
    exists L U,
      [/\ LU m = Ok (L, U), wf L /\ wf U,
          same_shape L m /\ same_shape U m
        & forall i, i < lines m -> entry L i i = fone S]
  else LU m = Err ErrLUNotSquare.
Proof.
move=> Hm; case: (lines m =P columns m) => [Hsq|/eqP Hsq]; last first.
  by rewrite /LU Hsq.
have [l [u [HLU Hl Hu [_ HL]]]] := LU_spec Hm Hsq.
exists (mkMatrix (lines m) (lines m) l), (mkMatrix (lines m) (lines m) u).
split=> //.
- by split; apply: wf_shape.
- by rewrite /same_shape /= -Hsq !eqxx.
- by move=> i Hi; rewrite /entry /= HL // /l_val eqxx.
Qed.

(** [Determinant] as a decision table: the empty-matrix error when a
    dimension is 0, the not-square error on a non-empty non-square matrix,
    a value in every other case (never a panic on a well-formed matrix). *)
Theorem Determinant_cases m :
  wf m ->
  [\/ (lines m = 0 \/ columns m = 0) /\ Determinant m = Err ErrEmptyMatrix,
      [/\ 0 < lines m, 0 < columns m, lines m <> columns m
        & Determinant m = Err ErrDetNotSquare]
    | [/\ 0 < lines m, lines m = columns m
        & exists d, Determinant m = Ok d]].
Proof.
move=> Hm; case: (posnP (lines m)) => [H0|Hl].
  by constructor 1; split; [left | rewrite /Determinant H0].
case: (posnP (columns m)) => [H0|Hc].
  by constructor 1; split; [right | rewrite /Determinant H0 orbT].
case: (lines m =P columns m) => [Hsq|Hne].
  by constructor 3; split=> //; apply: Determinant_ok.
constructor 2; split=> //.
rewrite /Determinant (gtn_eqF Hl) (gtn_eqF Hc) /=.
by case: eqP Hne.
Qed.

(** Whenever [Inverse] returns a matrix, on a well-formed receiver, that
    matrix is well-formed and has the receiver's shape. *)
Theorem Inverse_shape m (r : Matrix T) :
  wf m -> Inverse m = Ok r -> wf r /\ same_shape r m.
Proof.
move=> Hm; rewrite /Inverse; case: (lines m =P columns m) => [Hsq|] //=.
case: (Determinant m) => [d||] //=; case: (feq d _) => //.
rewrite augment_ok // bindE => -[<-].
have -> : extract (lines m)
            (normalize (lines m) (eliminate (lines m)
               (interchange (lines m) (augment_pure m))))
          = tab (lines m) (lines m)
              (fun i j => get2 (normalize (lines m) (eliminate (lines m)
                 (interchange (lines m) (augment_pure m)))) i (lines m + j)).
  by [].
rewrite NewMatrix_tab //; split; first exact: wf_tab.
by rewrite /same_shape /= -Hsq !eqxx.
Qed.

End MoreLU.

Section DeterminantExact.

Import GRing.Theory.

Variable F : numFieldType.

Lemma exact_prod (f : nat -> F) (k : nat) :
  foldl (fun d i => @fmul (exact F) d (f i)) (fone (exact F)) (iota 0 k)
  = (\prod_(0 <= i < k) f i)%R.
Proof.
elim: k => [|k IH]; first by rewrite big_geq.
by rewrite -{1}(addn1 k) iotaD foldl_cat IH /= big_nat_recr.
Qed.

Variable m : Matrix (exact F).
Hypothesis Hwf : wf m.
Hypothesis Hsq : lines m = columns m.
Hypothesis Hpos : 0 < lines m.
Hypothesis Hminors : forall k, 0 < k <= lines m -> leading_minor m k != 0%R.

Lemma Determinant_exact_correct :
  Determinant m = Ok (leading_minor m (lines m)).
Proof.
case: (ltnP 2 (lines m)) => Hn; last first.
  rewrite /Determinant /leading_minor -Hsq eqxx /= orbb.
  move: Hsq Hpos Hn (fun i j => @at2_ok _ m i j Hwf).
  case: (lines m) => [|[|[|n]]] //= Hc _ _ Hat.
    by rewrite Hat -?Hc // det_mx11 mxE.
  by rewrite !Hat -?Hc //= det2.
have [l [u [HLU Hl Hu [HUd HLd]]]] := LU_spec Hwf Hsq.
have HUrec r c : r < lines m -> c < lines m ->
    get2 u r c
    = (entry m r c - \sum_(0 <= j < r) get2 l r j * get2 u j c)%R.
  by move=> Hr Hc; rewrite HUd // /u_val /lu_sum exact_sum.
have HLrec r c : r < lines m -> c < lines m ->
    get2 l r c
    = if c == r then 1%R
      else if get2 u c c == 0%R then 0%R
      else ((entry m r c - \sum_(0 <= j < c) get2 l r j * get2 u j c)
            / get2 u c c)%R.
  by move=> Hr Hc; rewrite HLd // /l_val /lu_sum exact_sum.
have [HLz HUz Hp] := triangular_upto HUrec HLrec Hminors (leqnn (lines m)).
rewrite (Determinant_big Hn Hsq HLU Hu) /diag_prod exact_prod big_mkord.
rewrite /leading_minor (leading_minor_pivots HUrec HLrec (leqnn _) HLz HUz) //.
by move=> i Hi; apply: Hp; apply: ltnW.
Qed.

End DeterminantExact.

(** In exact arithmetic, on a non-empty square matrix whose leading
    principal minors are all non-zero, [Determinant] returns the
    determinant of the matrix. *)
Theorem Determinant_exact (F : numFieldType) (m : Matrix (exact F)) :
  wf m -> lines m = columns m -> 0 < lines m ->
  (forall k, 0 < k <= lines m -> leading_minor m k != 0%R) ->
  Determinant m
    = Ok (\det (\matrix_(i < lines m, j < lines m) entry m i j))%R.
Proof.
move=> Hwf Hsq Hpos Hminors.
exact: (Determinant_exact_correct Hwf Hsq Hpos Hminors).
Qed.

Lemma Determinant_exact_witness :
  [/\ wf A3_exact, lines A3_exact = columns A3_exact, 0 < lines A3_exact,
      forall k, 0 < k <= lines A3_exact -> leading_minor A3_exact k != 0%R
    & Determinant A3_exact
      = Ok (\det (\matrix_(i < lines A3_exact, j < lines A3_exact)
                     entry A3_exact i j))%R].
Proof.
have Hwf : wf A3_exact by [].
have Hsq : lines A3_exact = columns A3_exact by [].
have Hpos : 0 < lines A3_exact by [].
split=> //; first exact: A3_minors.
exact: (Determinant_exact Hwf Hsq Hpos A3_minors).
Defined.

Section ProductIdentity.

Import GRing.Theory.

Variable F : numFieldType.

Implicit Types A : Matrix (exact F).

Lemma dot_delta_l (n i : nat) (a : nat -> F) :
  i < n ->
  dot (S := exact F) n (entry (NewIdentityMatrix (exact F) n) i) a = a i.
Proof.
move=> Hi; rewrite /dot exact_sum big_mkord (bigD1 (Ordinal Hi)) //=.
rewrite entry_identity // /delta eqxx /= mul1r big1 ?addr0 // => k Hk.
rewrite entry_identity // /delta.
have /negbTE -> : i != k by rewrite eq_sym; apply: contraNneq Hk => H; apply/eqP/val_inj.
by rewrite /= mul0r.
Qed.

Lemma dot_delta_r (n j : nat) (a : nat -> F) :
  j < n ->
  dot (S := exact F) n a
      (fun k => entry (NewIdentityMatrix (exact F) n) k j) = a j.
Proof.
move=> Hj; rewrite /dot exact_sum big_mkord (bigD1 (Ordinal Hj)) //=.
rewrite entry_identity // /delta eqxx /= mulr1 big1 ?addr0 // => k Hk.
rewrite entry_identity // /delta.
have /negbTE -> : k != j :> nat by apply: contraNneq Hk => H; apply/eqP/val_inj.
by rewrite /= mulr0.
Qed.

Lemma Product_identity_exact A :
  wf A ->
  Product (NewIdentityMatrix (exact F) (lines A)) A = Ok A /\
  Product A (NewIdentityMatrix (exact F) (columns A)) = Ok A.
Proof.
move=> HA; split.
  rewrite (Product_ok (wf_identity _ _) HA (erefl _)) /= [in RHS](wf_eta HA).
  congr (Ok (mkMatrix _ _ _)); apply: (@tab_ext (exact F)) => i j Hi Hj.
  exact: dot_delta_l.
rewrite (Product_ok HA (wf_identity _ _) (erefl _)) /= [in RHS](wf_eta HA).
congr (Ok (mkMatrix _ _ _)); apply: (@tab_ext (exact F)) => i j Hi Hj.
exact: (dot_delta_r (entry A i)).
Qed.

End ProductIdentity.

(** In exact arithmetic the identity matrices are units of [Product] on
    both sides: [I.Product(A)] and [A.Product(I)] return A itself. *)
Theorem Product_identity (F : numFieldType) (A : Matrix (exact F)) :
  wf A ->
  Product (NewIdentityMatrix (exact F) (lines A)) A = Ok A /\
  Product A (NewIdentityMatrix (exact F) (columns A)) = Ok A.
Proof. by move=> HA; apply: Product_identity_exact. Qed.

Lemma Product_identity_witness :
  wf A3_exact /\
  Product (NewIdentityMatrix (exact rat) (lines A3_exact)) A3_exact
    = Ok A3_exact /\
  Product A3_exact (NewIdentityMatrix (exact rat) (columns A3_exact))
    = Ok A3_exact.
Proof.
have Hwf : wf A3_exact by [].
split; [exact: Hwf |]; exact: (Product_identity Hwf).
Defined.

(* ===================================================================== *)
(** * Elementwise operations, comparison and the zero-pivot guard *)
(* ===================================================================== *)

Section MoreSpecs.

Variable S : scalar.
Local Abbreviation T := (carrier S).
Local Abbreviation grid := (seq (seq T)).

Implicit Types m B : Matrix T.

(** [Sub] rejects exactly the pairs of different shape; on well-formed
    matrices of one shape it returns a well-formed matrix of that shape
    holding the entrywise differences. *)
Theorem Sub_spec m B :
  wf m -> wf B ->
  if same_shape m B then
    exists r, [/\ Sub m B = Ok r, wf r, same_shape r m
                & forall i j, i < lines m -> j < columns m ->
                    entry r i j = fsub (entry m i j) (entry B i j)]
  else Sub m B = Err ErrSizeNotSame.
Proof.
move=> Hm HB; case Hsh: (same_shape m B); last first.
  by move/negbT: Hsh; rewrite /same_shape /Sub negb_and => ->.
eexists; split; first exact: Sub_ok.
- by apply: wf_tab; rewrite (wf_dims Hm).
- by rewrite /same_shape /= !eqxx.
- by move=> i j Hi Hj; rewrite /entry /= get2_tab.
Qed.

(** [ScalarProduct] has no error case: on a well-formed matrix it returns
    a well-formed matrix of the same shape whose entries are the entries
    of the receiver multiplied, on the right, by the scalar. *)
Theorem ScalarProduct_spec m (k : T) :
  wf m ->
  exists r, [/\ ScalarProduct m k = Ok r, wf r, same_shape r m
              & forall i j, i < lines m -> j < columns m ->
                  entry r i j = fmul (entry m i j) k].
Proof.
move=> Hm; eexists; split; first exact: ScalarProduct_ok.
- by apply: wf_tab; rewrite (wf_dims Hm).
- by rewrite /same_shape /= !eqxx.
- by move=> i j Hi Hj; rewrite /entry /= get2_tab.
Qed.

(** Scaling and transposing commute, entry for entry and in any
    arithmetic. *)
Theorem ScalarProduct_Transpose m (k : T) :
  wf m ->
  (let* s := ScalarProduct m k in Transpose s)
  = (let* t := Transpose m in ScalarProduct t k).
Proof.
move=> Hm.
pose s := mkMatrix (lines m) (columns m)
            (tab (lines m) (columns m) (fun i j => fmul (entry m i j) k)).
pose t := mkMatrix (columns m) (lines m)
            (tab (columns m) (lines m) (fun i j => entry m j i)).
have Hs : wf s by apply: wf_tab; rewrite (wf_dims Hm).
have Ht : wf t by apply: wf_tab; rewrite (wf_dims Hm).
have -> : ScalarProduct m k = Ok s by apply: ScalarProduct_ok.
have -> : Transpose m = Ok t by apply: Transpose_ok.
rewrite !bindE (Transpose_ok Hs) (ScalarProduct_ok k Ht).
congr (Ok (mkMatrix _ _ _)); apply: tab_ext => i j Hi Hj.
by rewrite /entry /= !get2_tab.
Qed.

(** [Equals] never fails on well-formed matrices: it answers whether the
    shapes agree and every pair of corresponding entries compares [==]. *)
Theorem Equals_spec m B :
  wf m -> wf B ->
  Equals m B =
    Ok (same_shape m B &&
        all2 (lines m) (columns m)
             (fun i j => feq (entry m i j) (entry B i j))).
Proof.
move=> Hm HB; case Hsh: (same_shape m B); first exact: Equals_ok.
by rewrite Equals_shape // Hsh.
Qed.

(** The zero-pivot guard of [LU] (lines 250-251): wherever a pivot
    [U[i][i]] compares equal to zero, column [i] of [L] is zero off the
    diagonal; no quotient by that pivot is stored. *)
Theorem LU_zero_pivot_guard m (L U : Matrix T) (i k : nat) :
  wf m -> LU m = Ok (L, U) ->
  i < lines m -> k < lines m -> k != i ->
  feq (entry U i i) (fzero S) ->
  entry L k i = fzero S.
Proof.
move=> Hm HLU Hi Hk Hki Hz.
have Hsq : lines m = columns m.
  by move: HLU; rewrite /LU; case: eqP.
have [l [u [HLU' Hl Hu [_ HL]]]] := LU_spec Hm Hsq.
move: HLU; rewrite HLU' => -[HL' HU'].
move: Hz; rewrite -HL' -HU' /entry /= => Hz.
by rewrite HL // /l_val eq_sym (negbTE Hki) Hz.
Qed.

End MoreSpecs.



(* ===================================================================== *)
(** * Further properties: instances *)
(* ===================================================================== *)

Lemma Transpose_involutive_witness :
  wf A_lu /\ (let* t := Transpose A_lu in Transpose t) = Ok A_lu.
Proof.
have Hwf : wf A_lu by vm_compute.
split; [exact: Hwf |]; exact: (Transpose_involutive Hwf).
Defined.

Lemma Transpose_Sum_witness :
  [/\ wf A_lu, wf U_lu, same_shape A_lu U_lu
    & (let* s := Sum A_lu U_lu in Transpose s)
      = (let* tm := Transpose A_lu in
         let* tB := Transpose U_lu in Sum tm tB)].
Proof.
have Hm : wf A_lu by vm_compute.
have HB : wf U_lu by vm_compute.
have Hsh : same_shape A_lu U_lu by vm_compute.
split; [exact: Hm | exact: HB | exact: Hsh |].
exact: (Transpose_Sum Hm HB Hsh).
Defined.

Lemma constructors_establish_invariant_witness :
  all (fun row => size row == size (head [::] (data A_lu))) (data A_lu) /\
  [/\ wf (NewMatrix float64 (data A_lu)), wf (NullMatrix float64 3)
    & wf (NewIdentityMatrix float64 3)].
Proof.
have Hd : all (fun row => size row == size (head [::] (data A_lu))) (data A_lu).
  by vm_compute.
split; [exact: Hd |]; exact: (constructors_establish_invariant 3 Hd).
Defined.

Lemma Sum_spec_witness :
  [/\ wf A_lu, wf U_lu
    & if same_shape A_lu U_lu then
        exists r, [/\ Sum A_lu U_lu = Ok r, wf r, same_shape r A_lu
                    & forall i j, i < lines A_lu -> j < columns A_lu ->
                        entry r i j = fadd (entry A_lu i j) (entry U_lu i j)]
      else Sum A_lu U_lu = Err ErrSizeNotSame].
Proof.
have Hm : wf A_lu by vm_compute.
have HB : wf U_lu by vm_compute.
split; [exact: Hm | exact: HB |]; exact: (Sum_spec Hm HB).
Defined.

Lemma Product_spec_witness :
  [/\ wf L_lu, wf U_lu
    & if columns L_lu == lines U_lu then
        exists r, [/\ Product L_lu U_lu = Ok r, wf r,
                      lines r = lines L_lu /\ columns r = columns U_lu
                    & forall i j, i < lines L_lu -> j < columns U_lu ->
                        entry r i j
                        = dot (columns L_lu) (entry L_lu i)
                              (fun k => entry U_lu k j)]
      else Product L_lu U_lu = Err ErrProductShape].
Proof.
have Hm : wf L_lu by vm_compute.
have HB : wf U_lu by vm_compute.
split; [exact: Hm | exact: HB |]; exact: (Product_spec Hm HB).
Defined.

Lemma LU_spec_total_witness :
  wf A_lu /\
  if lines A_lu == columns A_lu then
    exists L U,
      [/\ LU A_lu = Ok (L, U), wf L /\ wf U,
          same_shape L A_lu /\ same_shape U A_lu
        & forall i, i < lines A_lu -> entry L i i = fone float64]
  else LU A_lu = Err ErrLUNotSquare.
Proof.
have Hm : wf A_lu by vm_compute.
split; [exact: Hm |]; exact: (LU_spec_total Hm).
Defined.

Lemma Determinant_cases_witness :
  wf A_lu /\
  [\/ (lines A_lu = 0 \/ columns A_lu = 0) /\
        Determinant A_lu = Err ErrEmptyMatrix,
      [/\ 0 < lines A_lu, 0 < columns A_lu, lines A_lu <> columns A_lu
        & Determinant A_lu = Err ErrDetNotSquare]
    | [/\ 0 < lines A_lu, lines A_lu = columns A_lu
        & exists d, Determinant A_lu = Ok d]].
Proof.
have Hm : wf A_lu by vm_compute.
split; [exact: Hm |]; exact: (Determinant_cases Hm).
Defined.

Lemma Inverse_shape_witness :
  [/\ wf Rot,
      Inverse Rot = Ok (NewMatrix float64 [:: [:: nan; nan]; [:: nan; nan]])
    & wf (NewMatrix float64 [:: [:: nan; nan]; [:: nan; nan]]) /\
      same_shape (NewMatrix float64 [:: [:: nan; nan]; [:: nan; nan]]) Rot].
Proof.
have Hm : wf Rot by vm_compute.
have Hr : Inverse Rot = Ok (NewMatrix float64 [:: [:: nan; nan]; [:: nan; nan]]).
  by vm_compute.
split; [exact: Hm | exact: Hr |]; exact: (Inverse_shape Hm Hr).
Defined.

Lemma Sub_spec_witness :
  [/\ wf A_lu, wf U_lu
    & if same_shape A_lu U_lu then
        exists r, [/\ Sub A_lu U_lu = Ok r, wf r, same_shape r A_lu
                    & forall i j, i < lines A_lu -> j < columns A_lu ->
                        entry r i j = @fsub float64 (entry A_lu i j) (entry U_lu i j)]
      else Sub A_lu U_lu = Err ErrSizeNotSame].
Proof.
have Hm : wf A_lu by vm_compute.
have HB : wf U_lu by vm_compute.
split; [exact: Hm | exact: HB |]; exact: (Sub_spec Hm HB).
Defined.

Lemma ScalarProduct_spec_witness :
  wf A_lu /\
  exists r, [/\ ScalarProduct A_lu 3%float = Ok r, wf r, same_shape r A_lu
              & forall i j, i < lines A_lu -> j < columns A_lu ->
                  entry r i j = @fmul float64 (entry A_lu i j) 3%float].
Proof.
have Hm : wf A_lu by vm_compute.
split; [exact: Hm |]; exact: (@ScalarProduct_spec float64 A_lu 3%float Hm).
Defined.

Lemma ScalarProduct_Transpose_witness :
  wf A_lu /\
  (let* s := ScalarProduct A_lu 3%float in Transpose s)
  = (let* t := Transpose A_lu in ScalarProduct t 3%float).
Proof.
have Hm : wf A_lu by vm_compute.
split; [exact: Hm |]; exact: (@ScalarProduct_Transpose float64 A_lu 3%float Hm).
Defined.

Lemma Equals_spec_witness :
  [/\ wf A_lu, wf One
    & Equals A_lu One =
        Ok (same_shape A_lu One &&
            all2 (lines A_lu) (columns A_lu)
                 (fun i j => @feq float64 (entry A_lu i j) (entry One i j)))].
Proof.
have Hm : wf A_lu by vm_compute.
have HB : wf One by vm_compute.
split; [exact: Hm | exact: HB |]; exact: (Equals_spec Hm HB).
Defined.

Lemma LU_zero_pivot_guard_witness :
  [/\ wf Rot, LU Rot = Ok (NewIdentityMatrix float64 2, Rot),
      0 < lines Rot & 1 < lines Rot] /\
  [/\ 1 != 0, @feq float64 (entry Rot 0 0) (fzero float64)
    & entry (NewIdentityMatrix float64 2) 1 0 = fzero float64].
Proof.
have Hm : wf Rot by vm_compute.
have HLU : LU Rot = Ok (NewIdentityMatrix float64 2, Rot) by vm_compute.
have Hi : 0 < lines Rot by vm_compute.
have Hk : 1 < lines Rot by vm_compute.
have Hki : 1 != 0 by [].
have Hz : @feq float64 (entry Rot 0 0) (fzero float64) by vm_compute.
split; split; [exact: Hm | exact: HLU | exact: Hi | exact: Hk | exact: Hki
              | exact: Hz |].
exact: (LU_zero_pivot_guard Hm HLU Hi Hk Hki Hz).
Defined.

(* ===================================================================== *)
(** * Laws that survive rounding *)
(* ===================================================================== *)

Lemma SFmul_comm (prec emax : Z) (x y : spec_float) :
  SFmul prec emax x y = SFmul prec emax y x.
Proof.
case: x => [sx|sx||sx mx ex]; case: y => [sy|sy||sy my ey] //=;
  by rewrite ?(Bool.xorb_comm sx sy) ?(Pos.mul_comm mx my) ?(Z.add_comm ex ey).
Qed.

Lemma float_mul_comm (x y : float) : PrimFloat.mul x y = PrimFloat.mul y x.
Proof. by apply: Prim2SF_inj; rewrite !mul_spec /SF64mul SFmul_comm. Qed.

Lemma SFadd_comm (prec emax : Z) (x y : spec_float) :
  SFadd prec emax x y = SFadd prec emax y x.
Proof.
case: x => [sx|sx||sx mx ex]; case: y => [sy|sy||sy my ey] //=;
  try by case: sx; case: sy.
by rewrite (Z.min_comm ex ey) Z.add_comm.
Qed.

Lemma float_add_comm (x y : float) : PrimFloat.add x y = PrimFloat.add y x.
Proof. by apply: Prim2SF_inj; rewrite !add_spec /SF64add SFadd_comm. Qed.

Section Commutative.

Variable S : scalar.
Local Abbreviation T := (carrier S).

Implicit Types m B : Matrix T.

Lemma dot_ext (n : nat) (a b a' b' : nat -> T) :
  (forall k, k < n -> fmul (a k) (b k) = fmul (a' k) (b' k)) ->
  dot n a b = dot n a' b'.
Proof.
move=> H; rewrite /dot; apply: foldl_ext => acc k.
by rewrite mem_iota add0n /= => Hk; rewrite H.
Qed.

Lemma Transpose_Product_comm m B :
  (forall a b : T, fmul a b = fmul b a) ->
  wf m -> wf B -> columns m = lines B ->
  (let* p := Product m B in Transpose p)
  = (let* tB := Transpose B in let* tm := Transpose m in Product tB tm).
Proof.
move=> Hmul Hm HB Hc.
pose p := mkMatrix (lines m) (columns B)
            (tab (lines m) (columns B)
               (fun i j => dot (columns m) (entry m i) (fun k => entry B k j))).
pose tm := mkMatrix (columns m) (lines m)
             (tab (columns m) (lines m) (fun i j => entry m j i)).
pose tB := mkMatrix (columns B) (lines B)
             (tab (columns B) (lines B) (fun i j => entry B j i)).
have Hp : wf p by apply: wf_tab; rewrite (wf_dims Hm) Hc (wf_dims HB).
have Htm : wf tm by apply: wf_tab; rewrite (wf_dims Hm).
have HtB : wf tB by apply: wf_tab; rewrite (wf_dims HB).
have Hc' : columns tB = lines tm by rewrite /= Hc.
have -> : Product m B = Ok p by apply: Product_ok.
have -> : Transpose m = Ok tm by apply: Transpose_ok.
have -> : Transpose B = Ok tB by apply: Transpose_ok.
rewrite !bindE (Transpose_ok Hp) (Product_ok HtB Htm Hc').
congr (Ok (mkMatrix _ _ _)); apply: tab_ext => i j Hi Hj.
rewrite [LHS]/entry /= get2_tab // -Hc; apply: dot_ext => k Hk.
by rewrite /entry /= !get2_tab // -?Hc // Hmul.
Qed.

Lemma Sum_comm_gen m B :
  (forall a b : T, fadd a b = fadd b a) ->
  wf m -> wf B -> Sum m B = Sum B m.
Proof.
move=> Hadd Hm HB.
have Hsym : same_shape B m = same_shape m B.
  by rewrite /same_shape eq_sym [columns B == _]eq_sym.
case Hsh: (same_shape m B).
  have Hsh' : same_shape B m by rewrite Hsym.
  rewrite (Sum_ok Hm HB Hsh) (Sum_ok HB Hm Hsh').
  case/andP: Hsh => /eqP -> /eqP ->.
  by congr (Ok (mkMatrix _ _ _)); apply: tab_ext => i j Hi Hj.
have Hsh' : ~~ same_shape B m by rewrite Hsym Hsh.
move/negbT: Hsh; move: Hsh'.
by rewrite /same_shape /Sum !negb_and => -> ->.
Qed.

End Commutative.

(** Binary64 multiplication commutes and both sides accumulate the inner
    products in the same order, so the transpose of a product is the
    product of the transposes in reverse order bit for bit, rounding, NaN
    and infinities included. *)
Theorem Transpose_Product (m B : Matrix float64) :
  wf m -> wf B -> columns m = lines B ->
  (let* p := Product m B in Transpose p)
  = (let* tB := Transpose B in let* tm := Transpose m in Product tB tm).
Proof. exact: (@Transpose_Product_comm float64 m B float_mul_comm). Qed.

Lemma Transpose_Product_witness :
  [/\ wf L_lu, wf U_lu, columns L_lu = lines U_lu
    & (let* p := Product L_lu U_lu in Transpose p)
      = (let* tB := Transpose U_lu in
         let* tm := Transpose L_lu in Product tB tm)].
Proof.
have Hm : wf L_lu by vm_compute.
have HB : wf U_lu by vm_compute.
have Hc : columns L_lu = lines U_lu by vm_compute.
split; [exact: Hm | exact: HB | exact: Hc |].
exact: (Transpose_Product Hm HB Hc).
Defined.

(** Binary64 addition commutes, so [Sum] is commutative on well-formed
    matrices: the same matrix bit for bit, or the same error. *)
Theorem Sum_commutative (m B : Matrix float64) :
  wf m -> wf B -> Sum m B = Sum B m.
Proof. exact: (@Sum_comm_gen float64 m B float_add_comm). Qed.

Lemma Sum_commutative_witness :
  [/\ wf A_lu, wf U_lu & Sum A_lu U_lu = Sum U_lu A_lu].
Proof.
have Hm : wf A_lu by vm_compute.
have HB : wf U_lu by vm_compute.
split; [exact: Hm | exact: HB |]; exact: (Sum_commutative Hm HB).
Defined.

(* ===================================================================== *)
(** * The constructors in the store *)
(* ===================================================================== *)

Section FrameConstructors.

Variable S : scalar.
Variable n : nat.
Local Abbreviation T := (carrier S).

Lemma safe_alloc_struct (l c : nat) (d : Heap.slice) :
  safe n (Heap.alloc (@Heap.CStruct S l c d)) (@top nat).
Proof.
have Hc : cell_ok n (@Heap.CStruct S l c d) by [].
by apply: safe_weaken (safe_alloc Hc) _.
Qed.

Lemma safe_NullMatrix (k : nat) : safe n (@Heap.NullMatrix S k) (@top nat).
Proof.
rewrite /Heap.NullMatrix.
apply: safe_seq_fresh (safe_make_outer k) _ => d Hd.
apply: safe_seq_top (safe_len_outer d) _ => len.
apply: safe_seq_top; last by move=> _; apply: safe_alloc_struct.
by apply: safe_forM => i; safe_go.
Qed.

Lemma safe_NewIdentityMatrix (k : nat) :
  safe n (@Heap.NewIdentityMatrix S k) (@top nat).
Proof.
rewrite /Heap.NewIdentityMatrix.
apply: safe_seq_fresh (safe_make_outer k) _ => d Hd.
apply: safe_seq_top (safe_len_outer d) _ => len.
apply: safe_seq_top; last by move=> _; apply: safe_alloc_struct.
by apply: safe_forM => i; safe_go.
Qed.

End FrameConstructors.

(** The three constructors leave every object that existed before the call
    as it was: they write only to the grid, rows and struct they allocate
    ([NewMatrix] to its struct alone, never to the grid it is given). *)
Theorem constructors_do_not_mutate (S : scalar) (e : nat) (h : Heap.heap S)
        (k : nat) (d : Heap.slice) :
  [/\ Heap.unchanged h (Heap.NullMatrix k h).2,
      Heap.unchanged h (Heap.NewIdentityMatrix k h).2
    & Heap.unchanged h (Heap.NewMatrix e d h).2].
Proof.
split.
- exact: safe_unchanged (@safe_NullMatrix S (size h) k).
- exact: safe_unchanged (@safe_NewIdentityMatrix S (size h) k).
- exact: safe_unchanged (@safe_NewMatrix S (size h) e d).
Qed.

Section Sharing.

Variable S : scalar.
Local Abbreviation T := (carrier S).
Local Abbreviation heap := (Heap.heap S).

Variable e : nat.

Lemma load_rcons (h : heap) (c c' : Heap.cell S) (a : nat) :
  index h a = Ok c -> Heap.load a (rcons h c') = (Ok c, rcons h c').
Proof.
by move=> Ha; rewrite /Heap.load index_rcons (index_okP Ha) Ha.
Qed.

Lemma load_last (h : heap) (c : Heap.cell S) :
  Heap.load (size h) (rcons h c) = (Ok c, rcons h c).
Proof. by rewrite /Heap.load index_rcons ltnn eqxx. Qed.

Lemma store_last (h : heap) (c c' : Heap.cell S) :
  Heap.store (size h) c' (rcons h c) = (Ok tt, rcons h c').
Proof.
rewrite /Heap.store size_rcons ltnSn; congr (_, _).
by elim: h => [|x h IH] //=; rewrite IH.
Qed.

Lemma NewMatrix_store (h : heap) (a : nat) (rs : seq Heap.slice) (xs : seq T) :
  index h a = Ok (@Heap.COuter S rs) ->
  (Heap.load_row (head None rs) h).1 = Ok xs ->
  Heap.NewMatrix e (Some a) h =
    if (size rs == 0) || (size xs == 0)
    then (Ok e, rcons h (@Heap.CStruct S (size rs) 0 (Some a)))
    else (Ok (size h), rcons h (@Heap.CStruct S (size rs) (size xs) (Some a))).
Proof.
move=> Ha Hxs.
rewrite /Heap.NewMatrix /Heap.mbind /Heap.alloc.
rewrite /Heap.len_outer /Heap.load_outer /Heap.mbind (load_rcons _ Ha) /Heap.ret.
case: rs Ha Hxs => [|r0 rs] Ha Hxs //=.
rewrite /Heap.set_lines /Heap.load_struct /Heap.mbind load_last /Heap.ret /=.
rewrite store_last.
rewrite /Heap.outer_get /Heap.load_outer /Heap.mbind (load_rcons _ Ha) /Heap.ret.
rewrite /Heap.lift /=.
have -> : Heap.len_row r0 (rcons h (@Heap.CStruct S (size rs).+1 0 (Some a)))
          = (Ok (size xs), rcons h (@Heap.CStruct S (size rs).+1 0 (Some a))).
  move: Hxs; rewrite /Heap.len_row /Heap.load_row /Heap.mbind.
  case: r0 {Ha} => [b|] /=; last by case=> <-.
  rewrite /Heap.load /= index_rcons.
  case Hb: (index h b) => [c| |] //=; rewrite (index_okP Hb).
  by case: c {Hb} => //= ys [<-].
case: (size xs =P 0) => // _.
by rewrite /Heap.set_columns /Heap.load_struct /Heap.mbind load_last /Heap.ret
           /= store_last.
Qed.

Lemma NewMatrix_write_through (h : heap) (a b i j : nat)
      (rs : seq Heap.slice) (xs ys : seq T) (v : T) :
  index h a = Ok (@Heap.COuter S rs) ->
  (Heap.load_row (head None rs) h).1 = Ok xs ->
  0 < size rs -> 0 < size xs ->
  index rs i = Ok (Some b) -> index h b = Ok (Heap.CRow ys) -> j < size ys ->
  (Heap.mbind (Heap.NewMatrix e (Some a)) (fun m =>
   Heap.mbind (Heap.set2 (Some a) i j v) (fun _ =>
   Heap.mbind (Heap.data m) (fun dm => Heap.get2 dm i j))) h).1 = Ok v.
Proof.
move=> Ha Hxs Hrs Hx Hi Hb Hj.
have Hab : (a == b) = false.
  by apply/eqP => Hab; move: Ha; rewrite Hab Hb.
have Hbh : b < size h := index_okP Hb.
rewrite {1}/Heap.mbind (NewMatrix_store Ha Hxs).
rewrite (gtn_eqF Hrs) (gtn_eqF Hx) /=.
set c3 := Heap.CStruct S _ _ _; set h3 := rcons h c3.
have Hb3 : b < size h3 by rewrite size_rcons ltnS ltnW.
set c4 := Heap.CRow (set_nth (fzero S) ys j v).
have Hset : Heap.set2 (Some a) i j v h3 = (Ok tt, set_nth c4 h3 b c4).
  rewrite /Heap.set2 /Heap.outer_get /Heap.load_outer /Heap.mbind.
  rewrite (load_rcons _ Ha) /Heap.ret /Heap.lift Hi.
  rewrite /Heap.row_set /Heap.load_row /Heap.mbind (load_rcons _ Hb) /Heap.ret.
  by rewrite Hj /Heap.store Hb3.
rewrite {1}/Heap.mbind Hset.
set h4 := set_nth _ _ _ _.
have Hm4 : index h4 (size h) = Ok c3.
  by rewrite index_set_nth // gtn_eqF // index_rcons ltnn eqxx.
have Ha4 : index h4 a = Ok (@Heap.COuter S rs).
  by rewrite index_set_nth // Hab index_rcons (index_okP Ha).
have Hb4 : index h4 b = Ok c4 by rewrite index_set_nth // eqxx.
rewrite /Heap.data /Heap.load_struct /Heap.mbind /Heap.load Hm4 /Heap.ret /=.
rewrite /Heap.get2 /Heap.outer_get /Heap.load_outer /Heap.mbind /Heap.load.
rewrite Ha4 /Heap.ret /Heap.lift Hi.
rewrite /Heap.row_get /Heap.load_row /Heap.mbind /Heap.load Hb4 /Heap.ret.
by rewrite /Heap.lift /= index_set_nth // eqxx.
Qed.

End Sharing.

(** [NewMatrix] does not copy the grid it is given (line 75): the matrix
    it returns for a non-empty grid holds the caller's slice itself, so a
    later write of the caller through that slice, [data[i][j] = v], is what
    the matrix then reads at [(i, j)]. *)
Theorem NewMatrix_shares_grid (S : scalar) (e : nat) (h : Heap.heap S)
        (a b i j : nat) (rs : seq Heap.slice) (xs ys : seq S) (v : S) :
  index h a = Ok (@Heap.COuter S rs) ->
  (Heap.load_row (head None rs) h).1 = Ok xs ->
  0 < size rs -> 0 < size xs ->
  index rs i = Ok (Some b) -> index h b = Ok (Heap.CRow ys) -> j < size ys ->
  (Heap.mbind (Heap.NewMatrix e (Some a)) (fun m =>
   Heap.mbind (Heap.set2 (Some a) i j v) (fun _ =>
   Heap.mbind (Heap.data m) (fun dm => Heap.get2 dm i j))) h).1 = Ok v.
Proof. exact: NewMatrix_write_through. Qed.

(** The empty cases of [NewMatrix] (lines 79-87): for a grid without rows,
    or whose first row is empty, every call returns the one package-level
    [empty_matrix], and the struct allocated on line 74 is left behind. *)
Theorem NewMatrix_empty_is_shared (S : scalar) (e : nat) (h : Heap.heap S)
        (a : nat) (rs : seq Heap.slice) (xs : seq S) :
  index h a = Ok (@Heap.COuter S rs) ->
  (Heap.load_row (head None rs) h).1 = Ok xs ->
  (size rs == 0) || (size xs == 0) ->
  (Heap.NewMatrix e (Some a) h).1 = Ok e /\
  size (Heap.NewMatrix e (Some a) h).2 = (size h).+1.
Proof.
by move=> Ha Hxs Hz; rewrite (NewMatrix_store e Ha Hxs) Hz /= size_rcons.
Qed.

Lemma NewMatrix_shares_grid_witness :
  [/\ index store_A_lu 5
        = Ok (@Heap.COuter float64 [:: Some 2; Some 3; Some 4]),
      (Heap.load_row (head None [:: Some 2; Some 3; Some 4]) store_A_lu).1
        = Ok [:: 2; -1; -2]%float,
      index [:: Some 2; Some 3; Some 4] 1 = Ok (Some 3),
      index store_A_lu 3 = Ok (Heap.CRow ([:: -4; 6; 3]%float : seq float64))
    & (Heap.mbind (Heap.NewMatrix (S := float64) 1 (Some 5)) (fun m =>
       Heap.mbind (Heap.set2 (S := float64) (Some 5) 1 2 7%float) (fun _ =>
       Heap.mbind (Heap.data m) (fun dm => Heap.get2 dm 1 2))) store_A_lu).1
      = Ok 7%float].
Proof.
have Ha : index store_A_lu 5
          = Ok (@Heap.COuter float64 [:: Some 2; Some 3; Some 4]).
  by vm_compute.
have Hxs : (Heap.load_row (head None [:: Some 2; Some 3; Some 4])
                          store_A_lu).1 = Ok [:: 2; -1; -2]%float.
  by vm_compute.
have Hi : index [:: Some 2; Some 3; Some 4] 1 = Ok (Some 3) by [].
have Hb : index store_A_lu 3
          = Ok (Heap.CRow ([:: -4; 6; 3]%float : seq float64)).
  by vm_compute.
split; [exact: Ha | exact: Hxs | exact: Hi | exact: Hb |].
exact: (@NewMatrix_shares_grid float64 1 store_A_lu 5 3 1 2 _ _ _ 7%float
          Ha Hxs (isT : 0 < 3) (isT : 0 < 3) Hi Hb (isT : 2 < 3)).
Defined.

Lemma NewMatrix_empty_is_shared_witness :
  [/\ index (Heap.init float64) 0 = Ok (@Heap.COuter float64 [::]),
      (Heap.load_row (head None [::]) (Heap.init float64)).1
        = Ok ([::] : seq float64),
      (size ([::] : seq Heap.slice) == 0) || (size ([::] : seq float64) == 0)
    & (Heap.NewMatrix 1 (Some 0) (Heap.init float64)).1 = Ok 1 /\
      size (Heap.NewMatrix 1 (Some 0) (Heap.init float64)).2
        = (size (Heap.init float64)).+1].
Proof.
have Ha : index (Heap.init float64) 0 = Ok (@Heap.COuter float64 [::]).
  by [].
have Hxs : (Heap.load_row (head None [::]) (Heap.init float64)).1
           = Ok ([::] : seq float64) by [].
have Hz : (size ([::] : seq Heap.slice) == 0)
          || (size ([::] : seq float64) == 0) by [].
split; [exact: Ha | exact: Hxs | exact: Hz |].
exact: (NewMatrix_empty_is_shared 1 Ha Hxs Hz).
Defined.

(* ===================================================================== *)
(** * Positional access in the store *)
(* ===================================================================== *)

Section ReadsOnly.

Variable S : scalar.
Local Abbreviation T := (carrier S).

Lemma reads_only_ret (A : Type) (a : A) : reads_only (Heap.ret (S := S) a).
Proof. by []. Qed.

Lemma reads_only_raise (A : Type) (e : error) : reads_only (@Heap.raise S A e).
Proof. by []. Qed.

Lemma reads_only_panic (A : Type) : reads_only (@Heap.panic S A).
Proof. by []. Qed.

Lemma reads_only_lift (A : Type) (r : result A) :
  reads_only (Heap.lift (S := S) r).
Proof. by []. Qed.

Lemma reads_only_load (a : nat) : reads_only (Heap.load (S := S) a).
Proof. by []. Qed.

Lemma reads_only_bind (A B : Type) (c : Heap.M S A) (k : A -> Heap.M S B) :
  reads_only c -> (forall a, reads_only (k a)) ->
  reads_only (Heap.mbind c k).
Proof.
move=> Hc Hk h; rewrite /Heap.mbind; move: (Hc h).
case: (c h) => [[a|e|] h1] /= -> //.
exact: Hk.
Qed.

Lemma reads_only_load_struct (m : nat) :
  reads_only (Heap.load_struct (S := S) m).
Proof.
apply: reads_only_bind (reads_only_load m) _ => c.
by case: c => *; [apply: reads_only_panic | apply: reads_only_panic
                 | apply: reads_only_ret].
Qed.

Lemma reads_only_load_outer (s : Heap.slice) :
  reads_only (Heap.load_outer (S := S) s).
Proof.
case: s => [a|] /=; last exact: reads_only_ret.
apply: reads_only_bind (reads_only_load a) _ => c.
by case: c => *; [apply: reads_only_panic | apply: reads_only_ret
                 | apply: reads_only_panic].
Qed.

Lemma reads_only_load_row (s : Heap.slice) :
  reads_only (Heap.load_row (S := S) s).
Proof.
case: s => [a|] /=; last exact: reads_only_ret.
apply: reads_only_bind (reads_only_load a) _ => c.
by case: c => *; [apply: reads_only_ret | apply: reads_only_panic
                 | apply: reads_only_panic].
Qed.

Lemma reads_only_Position (m : nat) (row col : Z) :
  reads_only (Heap.Position (S := S) m row col).
Proof.
rewrite /Heap.Position /Heap.lines /Heap.columns /Heap.data.
apply: reads_only_bind => [|lm].
  by apply: reads_only_bind (reads_only_load_struct m) _ => s;
     apply: reads_only_ret.
case: ifP => _; first exact: reads_only_raise.
apply: reads_only_bind => [|cm].
  by apply: reads_only_bind (reads_only_load_struct m) _ => s;
     apply: reads_only_ret.
case: ifP => _; first exact: reads_only_raise.
case: ifP => _; first exact: reads_only_raise.
case: ifP => _; first exact: reads_only_raise.
apply: reads_only_bind => [|dm].
  by apply: reads_only_bind (reads_only_load_struct m) _ => s;
     apply: reads_only_ret.
apply: reads_only_bind => [|r].
  by apply: reads_only_bind (reads_only_load_outer dm) _ => rs;
     apply: reads_only_lift.
by apply: reads_only_bind (reads_only_load_row r) _ => xs;
   apply: reads_only_lift.
Qed.

End ReadsOnly.

(** [Position] has no side effects: whatever the store, the receiver and
    the two indices (negative ones included), the store after the call is
    the store before it, whether the call returns a value, returns an
    error or panics. *)
Theorem Position_no_side_effects (S : scalar) (h : Heap.heap S) (m : nat)
        (row col : Z) :
  (Heap.Position m row col h).2 = h.
Proof. exact: reads_only_Position. Qed.

(** The store model of [Position] computes what the value model computes,
    on the matrix of [Test_LU] at an index in range, at a rejected index
    and at a negative one. *)
Example Heap_Position_agrees :
  let: (r, h) :=
    Heap.mbind (Heap.literal (data A_lu)) (fun d => Heap.NewMatrix 1 d)
      (Heap.init float64) in
  [/\ (let* m := r in (Heap.Position m 2 3 h).1) = Position A_lu 2 3,
      (let* m := r in (Heap.Position m 0 3 h).1) = Position A_lu 0 3
    & (let* m := r in (Heap.Position m (-1) 1 h).1) = Position A_lu (-1) 1].
Proof. by vm_compute. Qed.
